(** * quince: the ronda engine ([src/quince/ronda/ronda.py])

    A shallow embedding of the class [Ronda]: one play through a single deck
    of cards, from the initial deal to the moment the last card is played.

    Python objects that the engine shares with its caller (the [Player]
    instances) live in a store indexed by references; the attributes of the
    [Ronda] instance itself form a record.  Methods are computations in a
    small state-and-exception monad over the pair of both. *)

From stdpp Require Import base numbers functions list.

(** ** Exceptions *)

(** [RondaFinishedError] and [RondaNotFinishedError] are declared in
    [ronda.py].  [InvalidMoveError] and [DeckExhaustedError] are raised by the
    collaborators below; [ValueError], [IndexError] and [ZeroDivisionError]
    are Python's own, raised by [list.index], by subscripting and by [%]. *)
Inductive Exception : Type :=
  | RondaFinishedError
  | RondaNotFinishedError
  | InvalidMoveError
  | DeckExhaustedError
  | ValueError
  | IndexError
  | ZeroDivisionError.

#[global] Instance Exception_eq_dec : EqDecision Exception.
Proof. solve_decision. Defined.

(** ** Collaborators ([quince.components]) *)

Module Components.

(** Modelled from the spec: the class [Card] of [quince.components].  A
    card exposes a point value (the first component of [info()], read at
    line 67 of [ronda.py]) and a stable identity used for equality and for
    removal from a collection. *)
Record Card : Type := mkCard { point : Z; ident : nat }.

#[global] Instance Card_eq_dec : EqDecision Card.
Proof. solve_decision. Defined.

Definition info (c : Card) : Z * nat := (point c, ident c).

(** Modelled from the spec: the class [Deck] of [quince.components], an
    ordered source of cards, here with the next card to deal at the head.
    [deal n] removes and returns [n] cards, and fails when fewer than [n]
    remain; [cards] is the emptiness query used at line 140. *)
Definition Deck : Type := list Card.

Definition deal (n : nat) (d : Deck) : option (list Card * Deck) :=
  if decide (n ≤ length d) then Some (take n d, drop n d) else None.

Definition cards (d : Deck) : list Card := d.

(** Modelled from the spec: the capture pile of a player, with
    [add(cards, is_escoba=False)] appending the cards, optionally flagged
    as an escoba bonus. *)
Record Pila : Type := mkPila { pila_cards : list Card; pila_escobas : nat }.

Definition empty_pila : Pila := mkPila [] 0.

Definition add (p : Pila) (cs : list Card) (is_escoba : bool) : Pila :=
  mkPila (pila_cards p ++ cs)
         (if is_escoba then S (pila_escobas p) else pila_escobas p).

(** Modelled from the spec: the class [Player] of [quince.components]: a
    mutable hand and a capture pile. *)
Record Player : Type := mkPlayer { current_hand : list Card; pila : Pila }.

Definition fresh_player : Player := mkPlayer [] empty_pila.

(** Modelled from the spec: [receiveHand(cards)] adds the dealt cards to
    the hand. *)
Definition pick_up_hand (p : Player) (cs : list Card) : Player :=
  mkPlayer (current_hand p ++ cs) (pila p).

(** Removal of one card from a collection, by identity: the first
    occurrence goes, an absent card leaves the collection as it is. *)
Fixpoint remove_card (c : Card) (l : list Card) : list Card :=
  match l with
  | [] => []
  | x :: l' => if decide (x = c) then l' else x :: remove_card c l'
  end.

Definition remove_cards (l : list Card) (cs : list Card) : list Card :=
  foldl (λ m c, remove_card c m) l cs.

(** Modelled from the spec: [placeOnMesa(mesa, ownCard)] validates that the
    card is in the hand and moves it from the hand to the end of the mesa.
    The mesa is the list object of the engine, mutated in place: the
    function returns its new content next to the new player.  A failed
    validation raises [InvalidMoveError] before any mutation. *)
Definition place_card_on_mesa (p : Player) (mesa : list Card) (own_card : Card)
  : Exception + Player * list Card :=
  if decide (own_card ∈ current_hand p)
  then inr (mkPlayer (remove_card own_card (current_hand p)) (pila p),
            mesa ++ [own_card])
  else inl InvalidMoveError.

(** Modelled from the spec: [captureFromMesa(mesa, ownCard, mesaCards)]
    validates that the own card is in the hand and that every listed card
    is on the mesa; then the own card leaves the hand, the listed cards
    leave the mesa, and all of them are appended to the pile as one
    capture. *)
Definition pick_up_from_mesa (p : Player) (mesa : list Card) (own_card : Card)
    (mesa_cards : list Card) : Exception + Player * list Card :=
  if decide (own_card ∈ current_hand p ∧ Forall (λ c, c ∈ mesa) mesa_cards)
  then inr (mkPlayer (remove_card own_card (current_hand p))
                     (add (pila p) (own_card :: mesa_cards) false),
            remove_cards mesa mesa_cards)
  else inl InvalidMoveError.

End Components.
Export Components.

(** ** The state *)

(** A reference to a [Player] object; [==] on players is identity. *)
Definition Ref : Type := nat.

(** The attributes of a [Ronda] instance, as listed in the docstring of
    [__init__].  [_players] holds references; [_last_picked_up] is a
    reference too.  [_deck] holds the content of the deck object, which the
    engine owns for the lifetime of the ronda. *)
Record Ronda : Type := mkRonda {
  _players : list Ref;
  _dealer : nat;
  _deck : Deck;
  _finished : bool;
  _last_picked_up : Ref;
  _dealt_escoba : bool;
  _mesa : list Card;
  _current_player : nat
}.

Definition set_deck (d : Deck) (r : Ronda) : Ronda :=
  mkRonda (_players r) (_dealer r) d (_finished r) (_last_picked_up r)
          (_dealt_escoba r) (_mesa r) (_current_player r).
Definition set_finished (b : bool) (r : Ronda) : Ronda :=
  mkRonda (_players r) (_dealer r) (_deck r) b (_last_picked_up r)
          (_dealt_escoba r) (_mesa r) (_current_player r).
Definition set_last_picked_up (p : Ref) (r : Ronda) : Ronda :=
  mkRonda (_players r) (_dealer r) (_deck r) (_finished r) p
          (_dealt_escoba r) (_mesa r) (_current_player r).
Definition set_dealt_escoba (b : bool) (r : Ronda) : Ronda :=
  mkRonda (_players r) (_dealer r) (_deck r) (_finished r) (_last_picked_up r)
          b (_mesa r) (_current_player r).
Definition set_mesa (m : list Card) (r : Ronda) : Ronda :=
  mkRonda (_players r) (_dealer r) (_deck r) (_finished r) (_last_picked_up r)
          (_dealt_escoba r) m (_current_player r).
Definition set_current_player (i : nat) (r : Ronda) : Ronda :=
  mkRonda (_players r) (_dealer r) (_deck r) (_finished r) (_last_picked_up r)
          (_dealt_escoba r) (_mesa r) i.

(** The store of player objects, and the world a method runs in. *)
Abbreviation Heap := (Ref → Player).

Record World : Type := mkWorld { heap : Heap; self : Ronda }.

(** ** The monad: state with exceptions

    A raised exception carries the world as the method left it, since a
    Python exception does not undo the mutations made before it. *)
Inductive Res (A : Type) : Type :=
  | Ok (a : A) (w : World)
  | Err (e : Exception) (w : World).
Arguments Ok {A} a w.
Arguments Err {A} e w.

Definition M (A : Type) : Type := World → Res A.

Definition ret {A} (a : A) : M A := λ w, Ok a w.
Definition raise {A} (e : Exception) : M A := λ w, Err e w.
Definition bind {A B} (m : M A) (f : A → M B) : M B :=
  λ w, match m w with
       | Ok a w' => f a w'
       | Err e w' => Err e w'
       end.
Definition get_self : M Ronda := λ w, Ok (self w) w.
Definition get_player (p : Ref) : M Player := λ w, Ok (heap w p) w.
Definition modify_self (f : Ronda → Ronda) : M unit :=
  λ w, Ok tt (mkWorld (heap w) (f (self w))).
Definition put_player (p : Ref) (pl : Player) : M unit :=
  λ w, Ok tt (mkWorld (<[p := pl]> (heap w)) (self w)).

#[global] Instance M_ret : MRet M := @ret.
#[global] Instance M_bind : MBind M := λ A B f m, bind m f.

(** The world a computation ends in, whether it returned or raised. *)
Definition world_of {A} (r : Res A) : World :=
  match r with Ok _ w => w | Err _ w => w end.

(** Subscripting a list: [IndexError] when out of range. *)
Definition subscript {A} (l : list A) (i : nat) : M A :=
  match l !! i with
  | Some x => ret x
  | None => raise IndexError
  end.

(** ** Methods of [Ronda] *)

(** [self._deck.deal(n)], raising [DeckExhaustedError] when the deck cannot
    supply the cards. *)
Definition deck_deal (n : nat) : M (list Card) :=
  r ← get_self;
  match deal n (_deck r) with
  | Some (cs, d') => modify_self (set_deck d') ;; ret cs
  | None => raise DeckExhaustedError
  end.

(** The loop of [_deal_hands], lines 90-91. *)
Fixpoint deal_each (ps : list Ref) : M unit :=
  match ps with
  | [] => ret tt
  | plyr :: ps' =>
      cs ← deck_deal 3;
      pl ← get_player plyr;
      put_player plyr (pick_up_hand pl cs) ;;
      deal_each ps'
  end.

Definition _deal_hands : M unit :=
  r ← get_self;
  if _finished r then raise RondaFinishedError
  else deal_each (_players r).

Definition current_mesa : M (list Card) :=
  r ← get_self; ret (_mesa r).

Definition _next_player : M unit :=
  r ← get_self;
  match length (_players r) with
  | 0 => raise ZeroDivisionError
  | S _ as n => modify_self (set_current_player ((_current_player r + 1) mod n))
  end.

Definition current_player : M Ref :=
  r ← get_self; subscript (_players r) (_current_player r).

Definition is_finished : M bool :=
  r ← get_self; ret (_finished r).

Definition dealt_escoba : M bool :=
  r ← get_self; ret (_dealt_escoba r).

(** [plyr.pila().add(cards, is_escoba)] on the player object [plyr]. *)
Definition pila_add (plyr : Ref) (cs : list Card) (is_escoba : bool) : M unit :=
  pl ← get_player plyr;
  put_player plyr (mkPlayer (current_hand pl) (add (pila pl) cs is_escoba)).

(** [plyr.place_card_on_mesa(self._mesa, own_card)]: the mesa list is passed
    by reference and mutated by the player. *)
Definition player_place_card_on_mesa (plyr : Ref) (own_card : Card) : M unit :=
  pl ← get_player plyr;
  r ← get_self;
  match place_card_on_mesa pl (_mesa r) own_card with
  | inl e => raise e
  | inr (pl', mesa') => put_player plyr pl' ;; modify_self (set_mesa mesa')
  end.

Definition player_pick_up_from_mesa (plyr : Ref) (own_card : Card)
    (mesa_cards : list Card) : M unit :=
  pl ← get_player plyr;
  r ← get_self;
  match pick_up_from_mesa pl (_mesa r) own_card mesa_cards with
  | inl e => raise e
  | inr (pl', mesa') => put_player plyr pl' ;; modify_self (set_mesa mesa')
  end.

(** Lines 126-130 of [play_turn]: the current player performs an action.
    [mesa_cards] is [None] or a list. *)
Definition play_action (own_card : Card) (mesa_cards : option (list Card)) : M unit :=
  match mesa_cards with
  | None | Some [] =>
      plyr ← current_player;
      player_place_card_on_mesa plyr own_card
  | Some mcs =>
      plyr ← current_player;
      player_pick_up_from_mesa plyr own_card mcs ;;
      plyr' ← current_player;
      modify_self (set_last_picked_up plyr')
  end.

(** Line 136-137: the dealer has just played the last card of the hand. *)
Definition hand_is_done : M bool :=
  plyr ← current_player;
  r ← get_self;
  dlr ← subscript (_players r) (_dealer r);
  if decide (plyr = dlr) then
    plyr' ← current_player;
    pl ← get_player plyr';
    ret (bool_decide (current_hand pl = []))
  else ret false.

(** Lines 136-148 of [play_turn]: the three-way branch. *)
Definition play_branch : M unit :=
  done ← hand_is_done;
  r ← get_self;
  if done && bool_decide (cards (_deck r) = []) then
    rest ← current_mesa;
    pila_add (_last_picked_up r) rest false ;;
    modify_self (set_finished true)
  else if done then
    _deal_hands ;;
    _next_player
  else
    _next_player.

Definition play_turn (own_card : Card) (mesa_cards : option (list Card)) : M unit :=
  fin ← is_finished;
  if (fin : bool) then raise RondaFinishedError
  else
    play_action own_card mesa_cards ;;
    play_branch.

(** [list.index]: the first position holding the element. *)
Definition index (x : Ref) (l : list Ref) : option nat :=
  fst <$> list_find (λ y, y = x) l.

(** The outcome of calling the constructor: a ronda in its world, or an
    exception together with the store as the constructor left it. *)
Inductive Built : Type :=
  | Constructed (w : World)
  | Failed (e : Exception) (h : Heap).

(** Line 67: the sum of the point values of the cards. *)
Definition mesa_sum (cs : list Card) : Z :=
  foldr Z.add 0%Z ((λ x, (info x).1) <$> cs).

(** [Ronda.__init__], lines 58-80.  [_current_player] is assigned only at
    line 79 and nothing reads it before; the record is created with the
    value of that assignment. *)
Definition init_body : M unit :=
  r ← get_self;
  cs ← deck_deal 4;
  modify_self (set_mesa cs) ;;
  (if decide (mesa_sum cs = 15%Z) then
     dlr ← subscript (_players r) (_dealer r);
     copy ← current_mesa;
     pila_add dlr copy true ;;
     modify_self (set_mesa []) ;;
     modify_self (set_dealt_escoba true)
   else ret tt) ;;
  _deal_hands ;;
  modify_self (set_current_player (_dealer r)) ;;
  _next_player.

Definition init (players : list Ref) (dealer : Ref) (deck : Deck) (h : Heap) : Built :=
  match index dealer players with
  | None => Failed ValueError h
  | Some d =>
      let r0 := mkRonda players d deck false dealer false [] d in
      match init_body (mkWorld h r0) with
      | Ok _ w => Constructed w
      | Err e w => Failed e (heap w)
      end
  end.

(** ** Observations *)

Definition hand_of (w : World) (p : Ref) : list Card := current_hand (heap w p).
Definition pile_of (w : World) (p : Ref) : list Card := pila_cards (pila (heap w p)).

Definition sum_over (f : Ref → nat) (ps : list Ref) : nat :=
  foldr (λ p acc, f p + acc) 0 ps.

(** deckRemaining + Σ|hands| + |mesa| + Σ|piles|. *)
Definition total_cards (w : World) : nat :=
  length (_deck (self w))
  + sum_over (λ p, length (hand_of w p)) (_players (self w))
  + length (_mesa (self w))
  + sum_over (λ p, length (pile_of w p)) (_players (self w)).

(** ** A driver *)

(** In the manner of the loop of [rondarunner.py]: play the given moves one
    after the other, stopping at the first exception. *)
Fixpoint play_turns (moves : list (Card * option (list Card))) : M unit :=
  match moves with
  | [] => ret tt
  | (own_card, mesa_cards) :: rest =>
      play_turn own_card mesa_cards ;; play_turns rest
  end.

(** ** The worlds a turn leads to *)

(** A capture is a call with a non-empty selection of mesa cards. *)
Definition is_capture (mesa_cards : option (list Card)) : bool :=
  match mesa_cards with
  | Some (_ :: _) => true
  | _ => false
  end.

Definition selected (mesa_cards : option (list Card)) : list Card :=
  default [] mesa_cards.

(** What the players' methods validate before they move a card. *)
Definition valid_move (w : World) (p : Ref) (own_card : Card)
    (mesa_cards : option (list Card)) : Prop :=
  own_card ∈ hand_of w p ∧ Forall (λ x, x ∈ _mesa (self w)) (selected mesa_cards).

#[global] Instance valid_move_dec w p own_card mesa_cards :
  Decision (valid_move w p own_card mesa_cards).
Proof. unfold valid_move. apply _. Defined.

Definition after_drop (w : World) (p : Ref) (own_card : Card) : World :=
  mkWorld
    (<[p := mkPlayer (remove_card own_card (hand_of w p)) (pila (heap w p))]> (heap w))
    (set_mesa (_mesa (self w) ++ [own_card]) (self w)).

Definition after_capture (w : World) (p : Ref) (own_card : Card)
    (mcs : list Card) : World :=
  mkWorld
    (<[p := mkPlayer (remove_card own_card (hand_of w p))
                     (add (pila (heap w p)) (own_card :: mcs) false)]> (heap w))
    (set_last_picked_up p (set_mesa (remove_cards (_mesa (self w)) mcs) (self w))).

Definition after_action (w : World) (p : Ref) (own_card : Card)
    (mesa_cards : option (list Card)) : World :=
  if is_capture mesa_cards
  then after_capture w p own_card (selected mesa_cards)
  else after_drop w p own_card.

Definition after_finish (w : World) : World :=
  let lp := _last_picked_up (self w) in
  mkWorld
    (<[lp := mkPlayer (hand_of w lp) (add (pila (heap w lp)) (_mesa (self w)) false)]>
       (heap w))
    (set_finished true (self w)).

Definition after_next (w : World) : World :=
  mkWorld (heap w)
    (set_current_player
       ((_current_player (self w) + 1) mod length (_players (self w))) (self w)).

(** The store after a hand has been dealt to each of [ps] from deck [d]. *)
Fixpoint dealt_heap (ps : list Ref) (h : Heap) (d : Deck) : Heap :=
  match ps with
  | [] => h
  | p :: ps' => dealt_heap ps' (<[p := pick_up_hand (h p) (take 3 d)]> h) (drop 3 d)
  end.

Definition after_deal (w : World) : World :=
  mkWorld (dealt_heap (_players (self w)) (heap w) (_deck (self w)))
          (set_deck (drop (3 * length (_players (self w))) (_deck (self w))) (self w)).

(** Dealing touches the deck and the hands, nothing else. *)
Definition only_dealt (w w' : World) : Prop :=
  self w' = set_deck (_deck (self w')) (self w)
  ∧ ∀ p, pila (heap w' p) = pila (heap w p).

(** The world after lines 58-73: the mesa dealt and the escoba check made. *)
Definition opening (players : list Ref) (dealer : Ref) (d : nat) (deck : Deck)
    (h : Heap) : World :=
  if decide (mesa_sum (take 4 deck) = 15%Z) then
    mkWorld
      (<[dealer := mkPlayer (current_hand (h dealer))
                            (add (pila (h dealer)) (take 4 deck) true)]> h)
      (mkRonda players d (drop 4 deck) false dealer true [] d)
  else
    mkWorld h (mkRonda players d (drop 4 deck) false dealer false (take 4 deck) d).

(** ** One turn, case by case *)

(** Every way a call of [play_turn] can go, with the world it ends in. *)
Inductive turn (own_card : Card) (mesa_cards : option (list Card)) (w : World)
  : Res unit → Prop :=
  | turn_finished :
      _finished (self w) = true →
      turn own_card mesa_cards w (Err RondaFinishedError w)
  | turn_no_player :
      _finished (self w) = false →
      _players (self w) !! _current_player (self w) = None →
      turn own_card mesa_cards w (Err IndexError w)
  | turn_invalid p :
      _finished (self w) = false →
      _players (self w) !! _current_player (self w) = Some p →
      ¬ valid_move w p own_card mesa_cards →
      turn own_card mesa_cards w (Err InvalidMoveError w)
  | turn_no_dealer p :
      _finished (self w) = false →
      _players (self w) !! _current_player (self w) = Some p →
      valid_move w p own_card mesa_cards →
      _players (self w) !! _dealer (self w) = None →
      turn own_card mesa_cards w (Err IndexError (after_action w p own_card mesa_cards))
  | turn_end p :
      let w1 := after_action w p own_card mesa_cards in
      _finished (self w) = false →
      _players (self w) !! _current_player (self w) = Some p →
      valid_move w p own_card mesa_cards →
      _players (self w) !! _dealer (self w) = Some p →
      hand_of w1 p = [] →
      _deck (self w) = [] →
      turn own_card mesa_cards w (Ok tt (after_finish w1))
  | turn_redeal p :
      let w1 := after_action w p own_card mesa_cards in
      _finished (self w) = false →
      _players (self w) !! _current_player (self w) = Some p →
      valid_move w p own_card mesa_cards →
      _players (self w) !! _dealer (self w) = Some p →
      hand_of w1 p = [] →
      _deck (self w) ≠ [] →
      3 * length (_players (self w)) ≤ length (_deck (self w)) →
      turn own_card mesa_cards w (Ok tt (after_next (after_deal w1)))
  | turn_redeal_short p w' :
      let w1 := after_action w p own_card mesa_cards in
      _finished (self w) = false →
      _players (self w) !! _current_player (self w) = Some p →
      valid_move w p own_card mesa_cards →
      _players (self w) !! _dealer (self w) = Some p →
      hand_of w1 p = [] →
      _deck (self w) ≠ [] →
      length (_deck (self w)) < 3 * length (_players (self w)) →
      only_dealt w1 w' →
      turn own_card mesa_cards w (Err DeckExhaustedError w')
  | turn_next p dlr :
      let w1 := after_action w p own_card mesa_cards in
      _finished (self w) = false →
      _players (self w) !! _current_player (self w) = Some p →
      valid_move w p own_card mesa_cards →
      _players (self w) !! _dealer (self w) = Some dlr →
      ¬ (p = dlr ∧ hand_of w1 p = []) →
      turn own_card mesa_cards w (Ok tt (after_next w1)).

(** ** Sequences of turns *)

(** The worlds a caller can observe after construction: every call of
    [play_turn], whether it returns or raises, leads to another one. *)
Inductive reachable (w0 : World) : World → Prop :=
  | reachable_start : reachable w0 w0
  | reachable_turn w own_card mesa_cards :
      reachable w0 w →
      reachable w0 (world_of (play_turn own_card mesa_cards w)).

(** The worlds reached by turns that return, each with a selection of mesa
    cards that names no card twice. *)
Inductive played (w0 : World) : World → Prop :=
  | played_start : played w0 w0
  | played_turn w own_card mesa_cards w' :
      played w0 w →
      NoDup (selected mesa_cards) →
      play_turn own_card mesa_cards w = Ok tt w' →
      played w0 w'.

(** ** What the claims speak of *)

(** A redeal is due and the deck holds cards, but not enough of them. *)
Definition short_redeal (w : World) (own_card : Card)
    (mesa_cards : option (list Card)) : Prop :=
  _finished (self w) = false
  ∧ ∃ p, _players (self w) !! _current_player (self w) = Some p
       ∧ _players (self w) !! _dealer (self w) = Some p
       ∧ valid_move w p own_card mesa_cards
       ∧ hand_of (after_action w p own_card mesa_cards) p = []
       ∧ 0 < length (_deck (self w)) < 3 * length (_players (self w)).

(** Between [w1] and [w2] every player, in the order of the players
    sequence, has received the next three cards of the deck. *)
Definition redealt (w1 w2 : World) : Prop :=
  _deck (self w2)
  = drop (3 * length (_players (self w1))) (_deck (self w1))
  ∧ ∀ i p, _players (self w1) !! i = Some p →
      length (take 3 (drop (3 * i) (_deck (self w1)))) = 3
      ∧ hand_of w2 p = hand_of w1 p ++ take 3 (drop (3 * i) (_deck (self w1))).

(** What holds of the current player in every observable world. *)
Definition seated (players : list Ref) (dealer : Ref) (d : nat) (w : World) : Prop :=
  _players (self w) = players
  ∧ _dealer (self w) = d
  ∧ _current_player (self w) < length players
  ∧ (_finished (self w) = true →
     players !! _current_player (self w) = Some dealer).

(** The place of seat [i] in the order of play: the seat after the
    dealer's plays first, the dealer's last. *)
Definition place (players : list Ref) (d : nat) (i : nat) : nat :=
  if decide (d < i) then i - d - 1 else i + length players - d - 1.

(** Seats that have played in the current round of the table hold one
    card less than the others. *)
Definition hands_in_step (players : list Ref) (d : nat) (w : World) : Prop :=
  ∃ k, 1 ≤ k ≤ 3
    ∧ ∀ i p, players !! i = Some p →
        length (hand_of w p)
        = if decide (place players d i < place players d (_current_player (self w)))
          then k - 1 else k.

(** What holds of every world of a ronda played from a deck of [n0] cards
    by distinct players who came with no cards. *)
Definition at_table (players : list Ref) (d : nat) (n0 : nat) (w : World) : Prop :=
  _players (self w) = players
  ∧ _dealer (self w) = d
  ∧ _current_player (self w) < length players
  ∧ _last_picked_up (self w) ∈ players
  ∧ if _finished (self w) then
      (∀ p, p ∈ players → hand_of w p = [])
      ∧ _deck (self w) = []
      ∧ total_cards w = n0 + length (_mesa (self w))
    else
      total_cards w = n0 ∧ hands_in_step players d w.

(** ** Tables to play on *)

Definition c (v : Z) (i : nat) : Card := mkCard v i.

(** A store in which nobody holds a card. *)
Definition no_players : Heap := λ _, fresh_player.

(** Two players, player 0 deals, a deck of exactly 4 + 3·2 cards. *)
Definition deck10 : Deck :=
  [c 1 0; c 2 1; c 3 2; c 4 3; c 5 4; c 6 5; c 7 6; c 1 7; c 2 8; c 3 9].

Definition table10 : World :=
  after_next (after_deal (opening [0; 1] 0 0 deck10 no_players)).

(** Six turns in which every card is dropped on the mesa. *)
Definition drops10 : list (Card * option (list Card)) :=
  [(c 1 7, None); (c 5 4, None); (c 2 8, Some []); (c 6 5, None);
   (c 3 9, None); (c 7 6, None)].

(** The table before the dealer plays the last card of the hand, after the
    dealer has dropped it, and after the ronda has ended. *)
Definition table10_last : World := world_of (play_turns (take 5 drops10) table10).
Definition table10_dropped : World := after_drop table10_last 0 (c 7 6).
Definition table10_end : World := world_of (play_turns drops10 table10).

(** The last turn as a capture of the whole mesa. *)
Definition take_all : option (list Card) := Some (_mesa (self table10_last)).

Definition table10_taken : World :=
  after_capture table10_last 0 (c 7 6) (selected take_all).

(** The same table with one card more in the deck. *)
Definition deck11 : Deck := deck10 ++ [c 4 10].

Definition table11 : World :=
  after_next (after_deal (opening [0; 1] 0 0 deck11 no_players)).

Definition table11_last : World := world_of (play_turns (take 5 drops10) table11).

(** With three cards more: a hand for one player, none for the other. *)
Definition deck13 : Deck := deck10 ++ [c 4 10; c 5 11; c 6 12].

Definition table13 : World :=
  after_next (after_deal (opening [0; 1] 0 0 deck13 no_players)).

Definition table13_last : World := world_of (play_turns (take 5 drops10) table13).

Definition table13_dropped : World := after_drop table13_last 0 (c 7 6).

(** Where the sixth turn leaves that table. *)
Definition table13_stuck : World := world_of (play_turn (c 7 6) None table13_last).

(** A deck of 4 + 2·(3·2) cards: the sixth turn deals a second hand. *)
Definition deck16 : Deck :=
  deck10 ++ [c 4 10; c 5 11; c 6 12; c 7 13; c 1 14; c 2 15].

Definition table16 : World :=
  after_next (after_deal (opening [0; 1] 0 0 deck16 no_players)).

Definition table16_last : World := world_of (play_turns (take 5 drops10) table16).

Definition table16_dropped : World := after_drop table16_last 0 (c 7 6).

(** A deck whose first four cards sum to 15. *)
Definition deck_escoba : Deck :=
  [c 1 0; c 2 1; c 5 2; c 7 3; c 5 4; c 6 5; c 7 6; c 1 7; c 2 8; c 3 9].

(** ** More to observe *)

(** [_next_player] called [n] times in a row. *)
Fixpoint next_player_times (n : nat) : M unit :=
  match n with
  | 0 => ret tt
  | S n' => _next_player ;; next_player_times n'
  end.


(** The exception a computation ended with, if any. *)
Definition raised {A} (r : Res A) : option Exception :=
  match r with Ok _ _ => None | Err e _ => Some e end.

(** ** Running the monad in proofs *)

Ltac run :=
  unfold mbind, M_bind, bind, mret, M_ret, ret, raise, get_self, get_player,
    modify_self, put_player; simpl.

(** * Properties *)

Example init_deck10 :
  match init [0; 1] 0 deck10 no_players with
  | Constructed w =>
      _mesa (self w) = [c 1 0; c 2 1; c 3 2; c 4 3]
      ∧ hand_of w 0 = [c 5 4; c 6 5; c 7 6]
      ∧ hand_of w 1 = [c 1 7; c 2 8; c 3 9]
      ∧ _current_player (self w) = 1
      ∧ _deck (self w) = []
      ∧ total_cards w = 10
  | Failed _ _ => False
  end.
Proof. vm_compute. done. Qed.

(** ** The collaborators *)

Lemma deal_Some n d cs d' :
  deal n d = Some (cs, d') ↔ n ≤ length d ∧ cs = take n d ∧ d' = drop n d.
Proof.
  unfold deal. case_decide; split.
  - intros [= <- <-]. done.
  - intros (_ & -> & ->). done.
  - done.
  - intros (? & _). lia.
Qed.

Lemma deal_None n d : deal n d = None ↔ length d < n.
Proof. unfold deal. case_decide; split; (done || lia). Qed.

Lemma remove_card_length x l :
  x ∈ l → S (length (remove_card x l)) = length l.
Proof.
  induction l as [|y l IH]; simpl.
  - intros H. by apply elem_of_nil in H.
  - intros H. case_decide as Hy; [done|].
    apply elem_of_cons in H as [->|H]; [done|].
    simpl. by rewrite IH.
Qed.

Lemma remove_card_other x y l :
  y ≠ x → y ∈ l → y ∈ remove_card x l.
Proof.
  intros Hne. induction l as [|z l IH]; simpl; [done|].
  intros [->|H]%elem_of_cons.
  - case_decide; [congruence|]. apply elem_of_cons. by left.
  - case_decide; [done|]. apply elem_of_cons. right. auto.
Qed.

Lemma remove_cards_length cs : ∀ l,
  NoDup cs → Forall (λ x, x ∈ l) cs →
  length (remove_cards l cs) + length cs = length l.
Proof.
  unfold remove_cards.
  induction cs as [|x cs IH]; intros l Hnd Hin; simpl; [lia|].
  apply NoDup_cons in Hnd as [Hx Hnd].
  apply Forall_cons in Hin as [Hxl Hin].
  pose proof (remove_card_length x l Hxl).
  assert (Forall (λ y, y ∈ remove_card x l) cs) as Hin'.
  { rewrite Forall_forall in Hin. apply Forall_forall. intros y Hy.
    apply remove_card_other; [|by apply Hin]. by intros ->. }
  specialize (IH (remove_card x l) Hnd Hin'). lia.
Qed.

(** ** The methods, one equation each *)

Lemma current_player_eq w :
  current_player w =
    match _players (self w) !! _current_player (self w) with
    | Some p => Ok p w
    | None => Err IndexError w
    end.
Proof. unfold current_player, subscript. run. by case_match. Qed.

Lemma play_action_eq own_card mesa_cards w :
  play_action own_card mesa_cards w =
    match _players (self w) !! _current_player (self w) with
    | None => Err IndexError w
    | Some p =>
        if decide (valid_move w p own_card mesa_cards) then
          Ok tt (if is_capture mesa_cards
                 then after_capture w p own_card (selected mesa_cards)
                 else after_drop w p own_card)
        else Err InvalidMoveError w
    end.
Proof.
  unfold play_action, valid_move, selected, hand_of.
  destruct mesa_cards as [[|x mcs]|]; simpl.
  1,3: (unfold mbind, M_bind, bind at 1; rewrite current_player_eq;
        destruct (_ !! _) as [p|]; [|done];
        unfold player_place_card_on_mesa, place_card_on_mesa; run;
        destruct (decide (own_card ∈ _)) as [Ho|Ho];
        destruct (decide (_ ∧ _)) as [Hv|Hv]; simpl; try done;
        exfalso; [apply Hv; split; [done|constructor] | apply Ho, Hv]).
  unfold mbind, M_bind, bind at 1. rewrite current_player_eq.
  destruct (_ !! _) as [p|] eqn:Hp; [|done].
  unfold player_pick_up_from_mesa, pick_up_from_mesa; run.
  destruct (decide _) as [Hv|Hv]; simpl; [|done].
  rewrite current_player_eq. simpl. rewrite Hp. done.
Qed.

Lemma next_player_eq w :
  _players (self w) ≠ [] → _next_player w = Ok tt (after_next w).
Proof.
  unfold _next_player, after_next. run.
  destruct (_players (self w)); done.
Qed.

Lemma hand_is_done_eq w p dlr :
  _players (self w) !! _current_player (self w) = Some p →
  _players (self w) !! _dealer (self w) = Some dlr →
  hand_is_done w = Ok (bool_decide (p = dlr ∧ hand_of w p = [])) w.
Proof.
  intros Hp Hd. unfold hand_is_done, hand_of.
  unfold mbind, M_bind, bind at 1. rewrite current_player_eq, Hp.
  unfold subscript. run. rewrite Hd. simpl.
  case_decide as Heq.
  - rewrite current_player_eq, Hp. simpl. f_equal.
    apply bool_decide_ext. tauto.
  - f_equal. symmetry. apply bool_decide_eq_false. tauto.
Qed.

Lemma play_branch_eq w p dlr :
  _players (self w) !! _current_player (self w) = Some p →
  _players (self w) !! _dealer (self w) = Some dlr →
  play_branch w =
    if decide (p = dlr ∧ hand_of w p = []) then
      if decide (_deck (self w) = []) then Ok tt (after_finish w)
      else (_deal_hands ;; _next_player) w
    else _next_player w.
Proof.
  intros Hp Hd. unfold play_branch.
  unfold mbind, M_bind, bind at 1. rewrite (hand_is_done_eq w p dlr Hp Hd).
  run. unfold cards.
  case_decide as Hdone.
  - rewrite bool_decide_eq_true_2 by done. simpl.
    case_decide as Hdeck.
    + rewrite bool_decide_eq_true_2 by done. done.
    + rewrite bool_decide_eq_false_2 by done. done.
  - rewrite bool_decide_eq_false_2 by done. done.
Qed.

Lemma play_turn_eq own_card mesa_cards w :
  play_turn own_card mesa_cards w =
    if _finished (self w) then Err RondaFinishedError w
    else match play_action own_card mesa_cards w with
         | Ok _ w1 => play_branch w1
         | Err e w1 => Err e w1
         end.
Proof. unfold play_turn, is_finished. run. by destruct (_finished _). Qed.

(** ** Dealing hands *)

Lemma deck_deal_ok n w :
  n ≤ length (_deck (self w)) →
  deck_deal n w =
    Ok (take n (_deck (self w)))
       (mkWorld (heap w) (set_deck (drop n (_deck (self w))) (self w))).
Proof.
  intros Hn. unfold deck_deal, deal. run. by rewrite decide_True.
Qed.

Lemma deck_deal_short n w :
  length (_deck (self w)) < n → deck_deal n w = Err DeckExhaustedError w.
Proof.
  intros Hn. unfold deck_deal, deal. run. rewrite decide_False by lia. done.
Qed.

Lemma deal_each_ok ps : ∀ w,
  3 * length ps ≤ length (_deck (self w)) →
  deal_each ps w =
    Ok tt (mkWorld (dealt_heap ps (heap w) (_deck (self w)))
                   (set_deck (drop (3 * length ps) (_deck (self w))) (self w))).
Proof.
  induction ps as [|p ps IH]; intros w Hlen.
  - destruct w as [h []]. done.
  - cbn [deal_each]. unfold mbind, M_bind, bind at 1.
    rewrite deck_deal_ok by (simpl in Hlen; lia).
    run. rewrite IH; simpl.
    + rewrite drop_drop. unfold set_deck. simpl. do 4 f_equal. lia.
    + rewrite length_drop. simpl in Hlen. lia.
Qed.

Lemma deal_each_short ps : ∀ w,
  length (_deck (self w)) < 3 * length ps →
  ∃ w', deal_each ps w = Err DeckExhaustedError w'.
Proof.
  induction ps as [|p ps IH]; intros w Hlen; [simpl in Hlen; lia|].
  cbn [deal_each]. unfold mbind, M_bind, bind at 1.
  destruct (decide (3 ≤ length (_deck (self w)))) as [H3|H3].
  - rewrite deck_deal_ok by done. run.
    apply IH. simpl. rewrite length_drop. simpl in Hlen. lia.
  - rewrite deck_deal_short by lia. eauto.
Qed.

Lemma only_dealt_refl w : only_dealt w w.
Proof. split; [by destruct w as [h []]|done]. Qed.

Lemma deal_each_only_dealt ps : ∀ w, only_dealt w (world_of (deal_each ps w)).
Proof.
  induction ps as [|p ps IH]; intros w; [apply only_dealt_refl|].
  cbn [deal_each]. unfold mbind, M_bind, bind at 1.
  destruct (decide (3 ≤ length (_deck (self w)))) as [H3|H3].
  - rewrite deck_deal_ok by done. run.
    match goal with |- only_dealt _ (world_of (deal_each ps ?w1)) =>
      destruct (IH w1) as [Hs Hp] end.
    split.
    + rewrite Hs. by destruct w as [h []].
    + intros q. rewrite Hp. cbn [heap].
      destruct (decide (p = q)) as [->|Hne].
      * by rewrite fn_lookup_insert.
      * by rewrite fn_lookup_insert_ne.
  - rewrite deck_deal_short by lia. apply only_dealt_refl.
Qed.

Lemma dealt_heap_notin ps : ∀ h d p, p ∉ ps → dealt_heap ps h d p = h p.
Proof.
  induction ps as [|q ps IH]; intros h d p Hp; [done|].
  apply not_elem_of_cons in Hp as [Hne Hp].
  simpl. rewrite IH by done. by rewrite fn_lookup_insert_ne.
Qed.

Lemma dealt_heap_lookup ps : ∀ h d i p,
  NoDup ps → ps !! i = Some p →
  dealt_heap ps h d p = pick_up_hand (h p) (take 3 (drop (3 * i) d)).
Proof.
  induction ps as [|q ps IH]; intros h d i p Hnd Hi; [done|].
  apply NoDup_cons in Hnd as [Hq Hnd].
  destruct i as [|i]; simpl in Hi.
  - injection Hi as ->. simpl.
    rewrite dealt_heap_notin by done. by rewrite fn_lookup_insert.
  - simpl dealt_heap. rewrite (IH _ _ i p Hnd Hi).
    rewrite fn_lookup_insert_ne.
    + rewrite drop_drop. do 3 f_equal. lia.
    + intros ->. apply Hq. by eapply list_elem_of_lookup_2.
Qed.

(** ** Sums over the players *)

Lemma sum_over_ext f g ps :
  (∀ p, p ∈ ps → f p = g p) → sum_over f ps = sum_over g ps.
Proof.
  induction ps as [|q ps IH]; intros H; [done|].
  simpl. rewrite (H q) by (apply elem_of_cons; by left).
  rewrite IH; [done|]. intros p Hp. apply H, elem_of_cons. by right.
Qed.

Lemma sum_over_plus f k ps :
  sum_over (λ p, f p + k) ps = sum_over f ps + k * length ps.
Proof. induction ps as [|q ps IH]; simpl; [done|]. rewrite IH. lia. Qed.

Lemma sum_over_zero f ps :
  (∀ p, p ∈ ps → f p = 0) → sum_over f ps = 0.
Proof.
  intros H. rewrite (sum_over_ext f (λ _, 0)) by done.
  clear H. induction ps as [|q ps IH]; simpl; [done|]. exact IH.
Qed.

(** Replacing the object behind one reference changes one summand. *)
Lemma sum_over_insert (g : Player → nat) (h : Heap) p x ps :
  NoDup ps → p ∈ ps →
  sum_over (λ q, g (<[p := x]> h q)) ps + g (h p)
  = sum_over (λ q, g (h q)) ps + g x.
Proof.
  induction ps as [|q ps IH]; intros Hnd Hp; [by apply elem_of_nil in Hp|].
  apply NoDup_cons in Hnd as [Hq Hnd]. simpl.
  destruct (decide (p = q)) as [->|Hne].
  - rewrite fn_lookup_insert.
    rewrite (sum_over_ext (λ q0, g (<[q:=x]> h q0)) (λ q0, g (h q0))); [lia|].
    intros r Hr. rewrite fn_lookup_insert_ne; [done|]. by intros ->.
  - rewrite fn_lookup_insert_ne by done.
    apply elem_of_cons in Hp as [?|Hp]; [done|].
    specialize (IH Hnd Hp). lia.
Qed.

(** ** One turn, case by case *)

(** The action leaves the table's fixed attributes alone. *)
Lemma after_action_self w p own_card mesa_cards :
  let w1 := after_action w p own_card mesa_cards in
  _players (self w1) = _players (self w)
  ∧ _dealer (self w1) = _dealer (self w)
  ∧ _deck (self w1) = _deck (self w)
  ∧ _finished (self w1) = _finished (self w)
  ∧ _dealt_escoba (self w1) = _dealt_escoba (self w)
  ∧ _current_player (self w1) = _current_player (self w).
Proof. unfold after_action. by destruct (is_capture _). Qed.

Lemma deal_hands_eq w :
  _finished (self w) = false → _deal_hands w = deal_each (_players (self w)) w.
Proof. intros H. unfold _deal_hands. run. by rewrite H. Qed.

Lemma play_turn_turn own_card mesa_cards w :
  turn own_card mesa_cards w (play_turn own_card mesa_cards w).
Proof.
  rewrite play_turn_eq, play_action_eq.
  destruct (_finished (self w)) eqn:Hfin; [by constructor|].
  destruct (_players (self w) !! _current_player (self w)) as [p|] eqn:Hp;
    [|by constructor].
  destruct (decide (valid_move _ _ _ _)) as [Hv|Hv]; [|by econstructor].
  fold (after_action w p own_card mesa_cards).
  destruct (after_action_self w p own_card mesa_cards)
    as (Hps & Hd & Hdk & Hf & _ & Hc).
  set (w1 := after_action w p own_card mesa_cards) in *.
  destruct (_players (self w) !! _dealer (self w)) as [dlr|] eqn:Hdlr.
  - rewrite (play_branch_eq w1 p dlr) by (by rewrite Hps, ?Hc, ?Hd).
    assert (_players (self w1) ≠ []) as Hne.
    { rewrite Hps. intros Hnil. by rewrite Hnil in Hp. }
    destruct (decide (p = dlr ∧ hand_of w1 p = [])) as [[<- Hh]|Hnd].
    + destruct (decide (_deck (self w1) = [])) as [Hdeck|Hdeck].
      * rewrite Hdk in Hdeck. by apply (turn_end _ _ _ p).
      * unfold mbind, M_bind, bind.
        rewrite deal_hands_eq by (by rewrite Hf).
        destruct (decide (3 * length (_players (self w1)) ≤ length (_deck (self w1))))
          as [Hlen|Hlen].
        -- rewrite deal_each_ok by done. fold (after_deal w1).
           rewrite next_player_eq by done.
           rewrite Hps, Hdk in Hlen. rewrite Hdk in Hdeck.
           by apply (turn_redeal _ _ _ p).
        -- pose proof (deal_each_only_dealt (_players (self w1)) w1) as Hod.
           destruct (deal_each_short (_players (self w1)) w1) as [w' Hw']; [lia|].
           rewrite Hw' in *. simpl in Hod.
           rewrite Hps, Hdk in Hlen. rewrite Hdk in Hdeck.
           apply (turn_redeal_short _ _ _ p w'); (done || lia).
    + rewrite next_player_eq by done. by apply (turn_next _ _ _ p dlr).
  - unfold play_branch, hand_is_done.
    unfold mbind, M_bind, bind at 1. unfold mbind, M_bind, bind at 1.
    rewrite current_player_eq, Hps, Hc, Hp.
    unfold subscript. run. rewrite Hps, Hd, Hdlr. simpl.
    by apply (turn_no_dealer _ _ _ p).
Qed.

(** ** Construction *)

Lemma index_Some x l d :
  index x l = Some d ↔ l !! d = Some x ∧ ∀ j y, l !! j = Some y → j < d → y ≠ x.
Proof.
  unfold index. split.
  - destruct (list_find _ l) as [[i y]|] eqn:Hf; [|done].
    intros [= <-]. apply list_find_Some in Hf as (Hi & -> & Hlt). done.
  - intros [Hd Hlt].
    assert (list_find (λ y, y = x) l = Some (d, x)) as ->; [|done].
    apply list_find_Some. done.
Qed.

Lemma index_is_Some x l : x ∈ l ↔ is_Some (index x l).
Proof.
  unfold index. split.
  - intros H. destruct (list_find_elem_of (λ y, y = x) l x H eq_refl) as [[i y] ->].
    by eexists.
  - intros [d Hd]. destruct (list_find _ l) as [[i y]|] eqn:Hf; [|done].
    apply list_find_Some in Hf as (Hi & -> & _).
    by eapply list_elem_of_lookup_2.
Qed.

Lemma index_None x l : index x l = None ↔ x ∉ l.
Proof.
  rewrite index_is_Some. split.
  - intros -> [? ?]. done.
  - intros H. destruct (index x l) eqn:E; [|done]. exfalso. apply H. by eexists.
Qed.

Lemma init_body_opening players dealer d deck h :
  players !! d = Some dealer →
  4 ≤ length deck →
  init_body (mkWorld h (mkRonda players d deck false dealer false [] d))
  = (_deal_hands ;; modify_self (set_current_player d) ;; _next_player)
      (opening players dealer d deck h).
Proof.
  intros Hd Hlen. unfold init_body, opening.
  unfold mbind, M_bind, bind at 1. unfold get_self at 1. cbn [self].
  unfold mbind, M_bind, bind at 1. rewrite deck_deal_ok by done.
  cbn [self heap _deck _players _dealer].
  fold (mesa_sum (take 4 deck)).
  unfold mbind, M_bind, bind at 1. unfold modify_self at 1.
  unfold mbind, M_bind, bind at 1.
  destruct (decide (mesa_sum (take 4 deck) = 15%Z)) as [H15|H15].
  - unfold subscript. rewrite Hd. by run.
  - by run.
Qed.

Lemma opening_self players dealer d deck h :
  let w := opening players dealer d deck h in
  _players (self w) = players ∧ _dealer (self w) = d
  ∧ _deck (self w) = drop 4 deck ∧ _finished (self w) = false
  ∧ _last_picked_up (self w) = dealer ∧ _current_player (self w) = d.
Proof. unfold opening. by case_decide. Qed.

Lemma init_ok players dealer d deck h :
  index dealer players = Some d →
  4 + 3 * length players ≤ length deck →
  init players dealer deck h
  = Constructed (after_next (after_deal (opening players dealer d deck h))).
Proof.
  intros Hidx Hlen. unfold init. rewrite Hidx.
  apply index_Some in Hidx as [Hd _].
  rewrite init_body_opening by (done || lia).
  destruct (opening_self players dealer d deck h) as (Hps & Hdl & Hdk & Hf & Hlp & Hc).
  set (w := opening players dealer d deck h) in *.
  unfold mbind, M_bind, bind at 1.
  rewrite deal_hands_eq, deal_each_ok by (rewrite ?Hps, ?Hdk, ?length_drop; (done || lia)).
  fold (after_deal w).
  unfold mbind, M_bind, bind at 1. unfold modify_self at 1.
  rewrite next_player_eq.
  - unfold after_next. cbn [self heap]. do 2 f_equal.
    unfold after_deal, set_current_player, set_deck; simpl. by rewrite Hc, Hdl.
  - simpl. rewrite Hps. intros ->. done.
Qed.

Lemma init_short players dealer deck h :
  dealer ∈ players →
  length deck < 4 + 3 * length players →
  ∃ h', init players dealer deck h = Failed DeckExhaustedError h'.
Proof.
  intros Hin Hlen. unfold init.
  apply index_is_Some in Hin as [d Hidx]. rewrite Hidx.
  apply index_Some in Hidx as [Hd _].
  destruct (decide (4 ≤ length deck)) as [H4|H4].
  - rewrite init_body_opening by done.
    destruct (opening_self players dealer d deck h) as (Hps & Hdl & Hdk & Hf & Hlp & Hc).
    set (w := opening players dealer d deck h) in *.
    unfold mbind, M_bind, bind at 1.
    rewrite deal_hands_eq by done.
    destruct (deal_each_short (_players (self w)) w) as [w' ->]; [|by eexists].
    rewrite Hps, Hdk, length_drop. lia.
  - unfold init_body.
    unfold mbind, M_bind, bind at 1. unfold get_self at 1. cbn [self].
    unfold mbind, M_bind, bind at 1. rewrite deck_deal_short by (simpl; lia).
    by eexists.
Qed.

Example table10_built : init [0; 1] 0 deck10 no_players = Constructed table10.
Proof. vm_compute. reflexivity. Qed.

Example table11_built : init [0; 1] 0 deck11 no_players = Constructed table11.
Proof. vm_compute. reflexivity. Qed.

(** * The claims *)

(** ** Post-finish guard *)

(** C3. Post-finish guard: in a finished ronda every call of [play_turn],
    whatever its arguments, raises [RondaFinishedError] and leaves the world
    (mesa, hands, piles, deck, current player, finished flag) as it was; so
    after any further sequence of calls the world is still the same one, and
    [_finished] never goes back to false. *)
Theorem post_finish_guard own_card mesa_cards w :
  _finished (self w) = true →
  play_turn own_card mesa_cards w = Err RondaFinishedError w
  ∧ ∀ moves, world_of (play_turns moves w) = w
             ∧ _finished (self (world_of (play_turns moves w))) = true.
Proof.
  intros Hfin.
  assert (∀ o m, play_turn o m w = Err RondaFinishedError w) as Hguard.
  { intros o m. rewrite play_turn_eq. by rewrite Hfin. }
  split; [apply Hguard|].
  intros [|[o m] moves]; simpl; [done|].
  unfold mbind, M_bind, bind. by rewrite Hguard.
Qed.

Lemma post_finish_guard_witness :
  _finished (self table10_end) = true
  ∧ play_turn (c 9 99) (Some [c 1 0]) table10_end
    = Err RondaFinishedError table10_end
  ∧ ∀ moves, world_of (play_turns moves table10_end) = table10_end
             ∧ _finished (self (world_of (play_turns moves table10_end))) = true.
Proof.
  split; [vm_compute; reflexivity|].
  apply (post_finish_guard (c 9 99) (Some [c 1 0]) table10_end).
  vm_compute. reflexivity.
Defined.

(** ** Atomic move validation *)

(** C7. Atomic move validation: in a ronda that is not finished, when the
    own card is not in the current player's hand, or some listed mesa card is
    not on the mesa, [play_turn] raises [InvalidMoveError] and the world it
    leaves is the world it found. *)
Theorem invalid_move_is_atomic own_card mesa_cards w p :
  _finished (self w) = false →
  _players (self w) !! _current_player (self w) = Some p →
  (own_card ∉ hand_of w p
   ∨ ∃ x, x ∈ selected mesa_cards ∧ x ∉ _mesa (self w)) →
  play_turn own_card mesa_cards w = Err InvalidMoveError w.
Proof.
  intros Hfin Hp Hbad.
  rewrite play_turn_eq, Hfin, play_action_eq, Hp.
  rewrite decide_False; [done|].
  intros [Hown Hmesa]. destruct Hbad as [Hbad|(x & Hx & Hbad)]; [done|].
  rewrite Forall_forall in Hmesa. apply Hbad. by apply Hmesa.
Qed.

Lemma invalid_move_is_atomic_witness :
  play_turn (c 5 4) (Some [c 1 0]) table10 = Err InvalidMoveError table10
  ∧ play_turn (c 1 7) (Some [c 7 6]) table10 = Err InvalidMoveError table10.
Proof.
  split.
  - apply (invalid_move_is_atomic (c 5 4) (Some [c 1 0]) table10 1);
      [vm_compute; reflexivity..|].
    left. apply (bool_decide_unpack _). by vm_compute.
  - apply (invalid_move_is_atomic (c 1 7) (Some [c 7 6]) table10 1);
      [vm_compute; reflexivity..|].
    right. exists (c 7 6). split; [apply (bool_decide_unpack _); by vm_compute|].
    apply (bool_decide_unpack _). by vm_compute.
Defined.

(** ** The end of the ronda *)

Lemma play_turn_end own_card mesa_cards w w1 p :
  _finished (self w) = false →
  play_action own_card mesa_cards w = Ok tt w1 →
  _players (self w1) !! _current_player (self w1) = Some p →
  _players (self w1) !! _dealer (self w1) = Some p →
  hand_of w1 p = [] →
  _deck (self w1) = [] →
  play_turn own_card mesa_cards w = Ok tt (after_finish w1)
  ∧ _current_player (self w1) = _current_player (self w).
Proof.
  intros Hfin Hact Hp Hd Hh Hdk.
  rewrite play_turn_eq, Hfin, Hact.
  rewrite (play_branch_eq w1 p p Hp Hd).
  rewrite decide_True, decide_True by done. split; [done|].
  rewrite play_action_eq in Hact.
  destruct (_players (self w) !! _current_player (self w)) as [q|]; [|done].
  case_decide; [|done]. injection Hact as <-.
  fold (after_action w q own_card mesa_cards).
  apply after_action_self.
Qed.

(** C2. Termination: when a call of [play_turn] on a ronda that is not
    finished leaves, after the action, the dealer as current player with an
    empty hand and the deck empty, the call returns, [is_finished] is true
    afterwards, the pile of the last picker is its pile after the action
    followed by the cards then on the mesa (none, when the mesa is empty), no
    other player object changes, and the current player is the one the call
    started with. *)
Theorem ronda_terminates own_card mesa_cards w w1 p :
  _finished (self w) = false →
  play_action own_card mesa_cards w = Ok tt w1 →
  _players (self w1) !! _current_player (self w1) = Some p →
  _players (self w1) !! _dealer (self w1) = Some p →
  hand_of w1 p = [] →
  _deck (self w1) = [] →
  ∃ w2, play_turn own_card mesa_cards w = Ok tt w2
    ∧ is_finished w2 = Ok true w2
    ∧ _last_picked_up (self w2) = _last_picked_up (self w1)
    ∧ pile_of w2 (_last_picked_up (self w1))
      = pile_of w1 (_last_picked_up (self w1)) ++ _mesa (self w1)
    ∧ pila_escobas (pila (heap w2 (_last_picked_up (self w1))))
      = pila_escobas (pila (heap w1 (_last_picked_up (self w1))))
    ∧ (∀ q, q ≠ _last_picked_up (self w1) → heap w2 q = heap w1 q)
    ∧ (∀ q, hand_of w2 q = hand_of w1 q)
    ∧ _current_player (self w2) = _current_player (self w).
Proof.
  intros Hfin Hact Hp Hd Hh Hdk.
  destruct (play_turn_end _ _ _ _ _ Hfin Hact Hp Hd Hh Hdk) as [-> Hcur].
  eexists. split; [done|].
  unfold after_finish, pile_of, hand_of. cbn [heap self].
  rewrite fn_lookup_insert. repeat split; try done.
  - intros q Hq. by rewrite fn_lookup_insert_ne.
  - intros q. destruct (decide (_last_picked_up (self w1) = q)) as [<-|Hq].
    + by rewrite fn_lookup_insert.
    + by rewrite fn_lookup_insert_ne.
Qed.

(** The dealer drops the last card: ten cards lie on the mesa and go to the
    pile of the last picker. *)
Lemma ronda_terminates_witness :
  length (_mesa (self table10_dropped)) = 10
  ∧ ∃ w2, play_turn (c 7 6) None table10_last = Ok tt w2
    ∧ is_finished w2 = Ok true w2
    ∧ _last_picked_up (self w2) = _last_picked_up (self table10_dropped)
    ∧ pile_of w2 (_last_picked_up (self table10_dropped))
      = pile_of table10_dropped (_last_picked_up (self table10_dropped))
        ++ _mesa (self table10_dropped)
    ∧ pila_escobas (pila (heap w2 (_last_picked_up (self table10_dropped))))
      = pila_escobas (pila (heap table10_dropped (_last_picked_up (self table10_dropped))))
    ∧ (∀ q, q ≠ _last_picked_up (self table10_dropped) → heap w2 q = heap table10_dropped q)
    ∧ (∀ q, hand_of w2 q = hand_of table10_dropped q)
    ∧ _current_player (self w2) = _current_player (self table10_last).
Proof.
  split; [vm_compute; reflexivity|].
  apply (ronda_terminates (c 7 6) None table10_last table10_dropped 0);
    vm_compute; reflexivity.
Defined.

(** The dealer captures the whole mesa with the last card: nothing remains,
    and the pile of the last picker gains nothing at the end. *)
Example ronda_terminates_empty_mesa :
  play_action (c 7 6) take_all table10_last = Ok tt table10_taken
  ∧ _mesa (self table10_taken) = []
  ∧ play_turn (c 7 6) take_all table10_last = Ok tt (after_finish table10_taken)
  ∧ _finished (self (after_finish table10_taken)) = true
  ∧ pile_of (after_finish table10_taken) 0 = pile_of table10_taken 0
  ∧ length (pile_of (after_finish table10_taken) 0) = 10.
Proof. split_and!; vm_compute; reflexivity. Qed.

(** C9. The mesa is not cleared at termination: on the call that ends the
    ronda the cards left on the mesa are added to the last picker's pile and
    [_mesa] keeps them, so [current_mesa] still returns them once
    [is_finished] is true. *)
Theorem mesa_kept_at_termination own_card mesa_cards w w1 p :
  _finished (self w) = false →
  play_action own_card mesa_cards w = Ok tt w1 →
  _players (self w1) !! _current_player (self w1) = Some p →
  _players (self w1) !! _dealer (self w1) = Some p →
  hand_of w1 p = [] →
  _deck (self w1) = [] →
  ∃ w2, play_turn own_card mesa_cards w = Ok tt w2
    ∧ is_finished w2 = Ok true w2
    ∧ _mesa (self w2) = _mesa (self w1)
    ∧ current_mesa w2 = Ok (_mesa (self w1)) w2
    ∧ pile_of w2 (_last_picked_up (self w1))
      = pile_of w1 (_last_picked_up (self w1)) ++ _mesa (self w1).
Proof.
  intros Hfin Hact Hp Hd Hh Hdk.
  destruct (play_turn_end _ _ _ _ _ Hfin Hact Hp Hd Hh Hdk) as [-> Hcur].
  eexists. split; [done|].
  unfold after_finish, pile_of. cbn [heap self].
  rewrite fn_lookup_insert. done.
Qed.

Lemma mesa_kept_at_termination_witness :
  ∃ w2, play_turn (c 7 6) None table10_last = Ok tt w2
    ∧ is_finished w2 = Ok true w2
    ∧ _mesa (self w2) = _mesa (self table10_dropped)
    ∧ current_mesa w2 = Ok (_mesa (self table10_dropped)) w2
    ∧ pile_of w2 (_last_picked_up (self table10_dropped))
      = pile_of table10_dropped (_last_picked_up (self table10_dropped))
        ++ _mesa (self table10_dropped).
Proof.
  apply (mesa_kept_at_termination (c 7 6) None table10_last table10_dropped 0);
    vm_compute; reflexivity.
Defined.

(** ** What a turn never touches *)

Lemma dealt_heap_pila ps : ∀ h d p, pila (dealt_heap ps h d p) = pila (h p).
Proof.
  induction ps as [|q ps IH]; intros h d p; [done|].
  simpl. rewrite IH. destruct (decide (q = p)) as [->|Hne].
  - by rewrite fn_lookup_insert.
  - by rewrite fn_lookup_insert_ne.
Qed.

Lemma after_action_last_picked_up w p own_card mesa_cards :
  _last_picked_up (self (after_action w p own_card mesa_cards))
  = if is_capture mesa_cards then p else _last_picked_up (self w).
Proof. unfold after_action. by destruct (is_capture _). Qed.

(** The attributes every outcome of a turn leaves alone. *)
Lemma turn_fixed own_card mesa_cards w r :
  turn own_card mesa_cards w r →
  _players (self (world_of r)) = _players (self w)
  ∧ _dealer (self (world_of r)) = _dealer (self w)
  ∧ _dealt_escoba (self (world_of r)) = _dealt_escoba (self w).
Proof.
  destruct 1 as [ | | | p | p w1 | p w1 | p w' w1 ? ? ? ? ? ? ? [Hself _] | p dlr w1 ];
    try done; simpl;
    try (destruct (after_action_self w p own_card mesa_cards)
           as (Hps & Hd & _ & _ & He & _)).
  - done.
  - done.
  - done.
  - rewrite Hself. simpl. done.
  - done.
Qed.

(** Whom a turn leaves as the last picker. *)
Lemma turn_last_picked_up own_card mesa_cards w r :
  turn own_card mesa_cards w r →
  _last_picked_up (self (world_of r)) = _last_picked_up (self w)
  ∨ (is_capture mesa_cards = true
     ∧ _finished (self w) = false
     ∧ ∃ p, _players (self w) !! _current_player (self w) = Some p
          ∧ valid_move w p own_card mesa_cards
          ∧ _last_picked_up (self (world_of r)) = p).
Proof.
  destruct 1 as [ | | | p | p w1 | p w1 | p w' w1 ? ? ? ? ? ? ? [Hself _] | p dlr w1 ];
    try (by left); simpl; try rewrite Hself; simpl;
    try subst w1; rewrite after_action_last_picked_up;
    (destruct (is_capture mesa_cards) eqn:Hcap; [right|by left]);
    (split; [done|]); (split; [done|]); by exists p.
Qed.

(** ** The opening deal *)

Lemma dealt_escoba_eq w : dealt_escoba w = Ok (_dealt_escoba (self w)) w.
Proof. done. Qed.

Lemma after_next_deal_fixed w :
  let w' := after_next (after_deal w) in
  _players (self w') = _players (self w)
  ∧ _dealer (self w') = _dealer (self w)
  ∧ _finished (self w') = _finished (self w)
  ∧ _last_picked_up (self w') = _last_picked_up (self w)
  ∧ _dealt_escoba (self w') = _dealt_escoba (self w)
  ∧ _mesa (self w') = _mesa (self w)
  ∧ ∀ p, pila (heap w' p) = pila (heap w p).
Proof. simpl. split_and!; try done. intros p. apply dealt_heap_pila. Qed.

(** C4. Escoba on the opening deal: when the constructor has the cards it
    needs, and the 4 cards first dealt sum to 15, then [dealt_escoba] is
    true, the mesa is empty and the dealer's pile has gained exactly those 4
    cards, flagged as an escoba (so a dealer who came with an empty pile
    holds exactly those 4); for any other sum [dealt_escoba] is false, the
    mesa holds the 4 cards and no pile has changed.  No call of [play_turn],
    redeal or not, changes [_dealt_escoba]. *)
Theorem escoba_on_the_opening_deal players dealer deck h :
  dealer ∈ players →
  4 + 3 * length players ≤ length deck →
  ∃ w, init players dealer deck h = Constructed w
    ∧ (if decide (mesa_sum (take 4 deck) = 15%Z) then
         dealt_escoba w = Ok true w
         ∧ _mesa (self w) = []
         ∧ pila (heap w dealer) = add (pila (h dealer)) (take 4 deck) true
         ∧ (pila (h dealer) = empty_pila →
            pile_of w dealer = take 4 deck
            ∧ pila_escobas (pila (heap w dealer)) = 1)
       else
         dealt_escoba w = Ok false w
         ∧ _mesa (self w) = take 4 deck
         ∧ ∀ p, pila (heap w p) = pila (h p))
    ∧ ∀ w' own_card mesa_cards,
        _dealt_escoba (self (world_of (play_turn own_card mesa_cards w')))
        = _dealt_escoba (self w').
Proof.
  intros Hin Hlen. apply index_is_Some in Hin as [d Hidx].
  eexists. split; [by apply init_ok|]. split.
  - destruct (after_next_deal_fixed (opening players dealer d deck h))
      as (_ & _ & _ & _ & He & Hm & Hpila).
    unfold pile_of. rewrite !dealt_escoba_eq, He, Hm, !Hpila.
    destruct (decide (mesa_sum (take 4 deck) = 15%Z)) as [H15|H15].
    + unfold opening. rewrite decide_True by done. cbn [heap self].
      rewrite fn_lookup_insert. cbn [pila _mesa _dealt_escoba].
      split_and!; try done. intros ->. done.
    + split_and!.
      * unfold opening. by rewrite decide_False.
      * unfold opening. by rewrite decide_False.
      * intros p. rewrite Hpila. unfold opening. by rewrite decide_False.
  - intros w' own_card mesa_cards.
    apply (turn_fixed own_card mesa_cards w' _ (play_turn_turn _ _ _)).
Qed.

Lemma escoba_on_the_opening_deal_witness :
  ∃ w, init [0; 1] 0 deck_escoba no_players = Constructed w
    ∧ (dealt_escoba w = Ok true w
       ∧ _mesa (self w) = []
       ∧ pila (heap w 0) = add (pila (no_players 0)) (take 4 deck_escoba) true
       ∧ (pila (no_players 0) = empty_pila →
          pile_of w 0 = take 4 deck_escoba
          ∧ pila_escobas (pila (heap w 0)) = 1))
    ∧ ∀ w' own_card mesa_cards,
        _dealt_escoba (self (world_of (play_turn own_card mesa_cards w')))
        = _dealt_escoba (self w').
Proof.
  apply (escoba_on_the_opening_deal [0; 1] 0 deck_escoba no_players).
  - apply (bool_decide_unpack _). by vm_compute.
  - vm_compute. lia.
Defined.

Example no_escoba_on_the_opening_deal :
  dealt_escoba table10 = Ok false table10
  ∧ _mesa (self table10) = [c 1 0; c 2 1; c 3 2; c 4 3].
Proof. split; vm_compute; reflexivity. Qed.

(** ** Who plays first, who picked last *)

(** C8. Turn order and last picker: after construction the current player
    is the one at index (dealerIndex + 1) mod N and the last picker is the
    dealer; a call of [play_turn] changes the last picker only when it is a
    capture (a non-empty [mesa_cards]) that passes validation, and then the
    last picker is the player who acted. *)
Theorem turn_order_and_last_picker players dealer deck h d :
  index dealer players = Some d →
  4 + 3 * length players ≤ length deck →
  ∃ w, init players dealer deck h = Constructed w
    ∧ _players (self w) = players
    ∧ _current_player (self w) = (d + 1) mod length players
    ∧ current_player w = subscript players ((d + 1) mod length players) w
    ∧ _last_picked_up (self w) = dealer
    ∧ (∀ w' p own_card mesa_cards,
         _finished (self w') = false →
         _players (self w') !! _current_player (self w') = Some p →
         valid_move w' p own_card mesa_cards →
         is_capture mesa_cards = true →
         _last_picked_up (self (world_of (play_turn own_card mesa_cards w'))) = p)
    ∧ (∀ w' own_card mesa_cards,
         _last_picked_up (self (world_of (play_turn own_card mesa_cards w')))
         ≠ _last_picked_up (self w') →
         is_capture mesa_cards = true
         ∧ _finished (self w') = false
         ∧ ∃ p, _players (self w') !! _current_player (self w') = Some p
              ∧ valid_move w' p own_card mesa_cards).
Proof.
  intros Hidx Hlen. eexists. split; [by apply init_ok|].
  destruct (opening_self players dealer d deck h) as (Hps & Hdl & Hdk & Hf & Hlp & Hc).
  destruct (after_next_deal_fixed (opening players dealer d deck h))
    as (Hps' & _ & _ & Hlp' & _).
  assert (_current_player (self (after_next (after_deal (opening players dealer d deck h))))
          = (d + 1) mod length players) as Hcur.
  { simpl. by rewrite Hps, Hc. }
  split_and!.
  - by rewrite Hps'.
  - done.
  - rewrite current_player_eq, Hps', Hps, Hcur. unfold subscript.
    by destruct (players !! _).
  - by rewrite Hlp'.
  - intros w' p own_card mesa_cards Hfin Hp Hv Hcap.
    destruct (turn_last_picked_up own_card mesa_cards w' _ (play_turn_turn _ _ _))
      as [Hsame|(_ & _ & q & Hq & _ & ->)]; [|congruence].
    pose proof (play_turn_turn own_card mesa_cards w') as Ht.
    destruct Ht as [ | | q | q | q w1 | q w1 | q w'' w1 ? ? ? ? ? ? ? [Hself _] | q dlr w1 ];
      try congruence; try (assert (q = p) as -> by congruence; done);
      cbn [world_of after_finish after_next after_deal self set_finished
           set_current_player set_deck _last_picked_up];
      try rewrite Hself; cbn [set_deck _last_picked_up];
      try subst w1; rewrite after_action_last_picked_up, Hcap; congruence.
  - intros w' own_card mesa_cards Hne.
    destruct (turn_last_picked_up own_card mesa_cards w' _ (play_turn_turn _ _ _))
      as [Hsame|(Hcap & Hfin & q & Hq & Hv & _)]; [done|].
    split_and!; try done. by exists q.
Qed.

Lemma turn_order_and_last_picker_witness :
  ∃ w, init [0; 1] 0 deck10 no_players = Constructed w
    ∧ _current_player (self w) = 1
    ∧ current_player w = Ok 1 w
    ∧ _last_picked_up (self w) = 0.
Proof.
  destruct (turn_order_and_last_picker [0; 1] 0 deck10 no_players 0)
    as (w & H1 & H2 & H3 & H4 & H5 & _); [vm_compute; reflexivity|vm_compute; lia|].
  exists w. split_and!; done.
Defined.

(** ** A deck that runs short *)

Lemma play_turn_deck_exhausted own_card mesa_cards w :
  (∃ w', play_turn own_card mesa_cards w = Err DeckExhaustedError w')
  ↔ short_redeal w own_card mesa_cards.
Proof.
  split.
  - intros [w' Hw']. pose proof (play_turn_turn own_card mesa_cards w) as Ht.
    rewrite Hw' in Ht.
    inversion Ht as [ | | | | | | p w'' w1 Hfin Hp Hv Hd Hh Hdk Hlen Hod | ]; subst.
    split; [done|]. exists p. split_and!; try done.
    destruct (_deck (self w)); [done|simpl; lia].
  - intros (Hfin & p & Hp & Hd & Hv & Hh & Hlen).
    rewrite play_turn_eq, Hfin, play_action_eq, Hp, decide_True by done.
    fold (after_action w p own_card mesa_cards).
    destruct (after_action_self w p own_card mesa_cards)
      as (Hps & Hdl & Hdk & Hf & _ & Hc).
    set (w1 := after_action w p own_card mesa_cards) in *.
    rewrite (play_branch_eq w1 p p) by (by rewrite Hps, ?Hc, ?Hdl).
    rewrite decide_True by done.
    rewrite decide_False by (rewrite Hdk; intros E; rewrite E in Hlen; simpl in Hlen; lia).
    unfold mbind, M_bind, bind.
    rewrite deal_hands_eq by (by rewrite Hf).
    destruct (deal_each_short (_players (self w1)) w1) as [w' ->]; [|by eexists].
    rewrite Hps, Hdk. lia.
Qed.

(** C6, as amended.  Construction failure mode: with the dealer among the
    players and a deck of fewer than 4 + 3·N cards the constructor raises
    [DeckExhaustedError].  The error is not confined to construction:
    [play_turn] raises it exactly when a redeal is due (the dealer, as
    current player, has just emptied the hand) and the deck holds at least
    one card but fewer than 3·N. *)
Theorem deck_exhausted_error players dealer deck h :
  dealer ∈ players →
  length deck < 4 + 3 * length players →
  (∃ h', init players dealer deck h = Failed DeckExhaustedError h')
  ∧ ∀ w own_card mesa_cards,
      (∃ w', play_turn own_card mesa_cards w = Err DeckExhaustedError w')
      ↔ short_redeal w own_card mesa_cards.
Proof.
  intros Hin Hlen. split; [by apply init_short|].
  intros w own_card mesa_cards. apply play_turn_deck_exhausted.
Qed.

Lemma deck_exhausted_error_witness :
  (∃ h', init [0; 1] 0 (take 9 deck10) no_players = Failed DeckExhaustedError h')
  ∧ ∀ w own_card mesa_cards,
      (∃ w', play_turn own_card mesa_cards w = Err DeckExhaustedError w')
      ↔ short_redeal w own_card mesa_cards.
Proof.
  apply (deck_exhausted_error [0; 1] 0 (take 9 deck10) no_players).
  - apply (bool_decide_unpack _). by vm_compute.
  - vm_compute. lia.
Defined.

(** The claim as stated fails: a ronda built from a deck of 11 cards for
    two players raises [DeckExhaustedError] in its sixth turn. *)
Lemma deck_exhausted_after_construction :
  init [0; 1] 0 deck11 no_players = Constructed table11
  ∧ play_turns (take 5 drops10) table11 = Ok tt table11_last
  ∧ play_turn (c 7 6) None table11_last
    = Err DeckExhaustedError (after_drop table11_last 0 (c 7 6)).
Proof. split_and!; vm_compute; reflexivity. Qed.

(** ** The current player *)

Lemma reachable_play_turns moves : ∀ w0 w,
  reachable w0 w → reachable w0 (world_of (play_turns moves w)).
Proof.
  induction moves as [|[own_card mesa_cards] moves IH]; intros w0 w Hr; [done|].
  cbn [play_turns]. unfold mbind, M_bind, bind.
  pose proof (reachable_turn w0 w own_card mesa_cards Hr) as Hr'.
  destruct (play_turn own_card mesa_cards w) as [[] w'|e w']; [by apply IH|done].
Qed.

Lemma init_Constructed players dealer deck h w0 :
  init players dealer deck h = Constructed w0 →
  ∃ d, index dealer players = Some d
     ∧ 4 + 3 * length players ≤ length deck
     ∧ w0 = after_next (after_deal (opening players dealer d deck h)).
Proof.
  intros Hinit.
  destruct (index dealer players) as [d|] eqn:Hidx.
  - exists d. split; [done|].
    destruct (decide (4 + 3 * length players ≤ length deck)) as [Hlen|Hlen].
    + split; [done|]. rewrite (init_ok _ _ d) in Hinit by done. congruence.
    + destruct (init_short players dealer deck h) as [h' Hh'].
      * apply index_is_Some. by eexists.
      * lia.
      * congruence.
  - unfold init in Hinit. by rewrite Hidx in Hinit.
Qed.

Lemma next_index_lt i n : 0 < n → (i + 1) mod n < n.
Proof. intros Hn. apply Nat.mod_upper_bound. lia. Qed.

Section current_player.
Context (players : list Ref) (dealer : Ref) (d : nat).
Hypothesis dealer_at_d : players !! d = Some dealer.

Lemma seated_turn own_card mesa_cards w r :
  turn own_card mesa_cards w r →
  seated players dealer d w →
  seated players dealer d (world_of r).
Proof using dealer_at_d.
  intros Ht (Hps & Hdl & Hcur & Hfin).
  assert (0 < length players) as Hpos by lia.
  destruct Ht as [ | | | p | p w1 | p w1 | p w' w1 ? ? ? ? ? ? ? [Hself _] | p dlr w1 ];
    try done; cbn [world_of]; try subst w1;
    destruct (after_action_self w p own_card mesa_cards)
      as (Hps1 & Hd1 & Hdk1 & Hf1 & _ & Hc1).
  - unfold seated. rewrite Hps1, Hd1, Hc1, Hf1. split_and!; try done; try congruence.
  - unfold seated, after_finish. cbn [self set_finished _players _dealer
      _current_player _finished].
    rewrite Hps1, Hd1, Hc1. split_and!; try done; try (intros _; congruence).
  - unfold seated. simpl. rewrite Hps1, Hd1, Hc1, Hf1, Hps.
    split_and!; try done; try (by apply next_index_lt); try congruence.
  - unfold seated. rewrite Hself. cbn [set_deck _players _dealer _current_player
      _finished]. rewrite Hps1, Hd1, Hc1, Hf1.
    split_and!; try done; try congruence.
  - unfold seated. simpl. rewrite Hps1, Hd1, Hc1, Hf1, Hps.
    split_and!; try done; try (by apply next_index_lt); try congruence.
Qed.

Lemma seated_reachable w0 w :
  seated players dealer d w0 → reachable w0 w → seated players dealer d w.
Proof using dealer_at_d.
  intros H0. induction 1 as [|w own_card mesa_cards Hr IH]; [done|].
  eapply seated_turn; [apply play_turn_turn|done].
Qed.
End current_player.

Lemma seated_init players dealer deck h w0 :
  init players dealer deck h = Constructed w0 →
  ∃ d, players !! d = Some dealer ∧ seated players dealer d w0.
Proof.
  intros (d & Hidx & Hlen & ->)%init_Constructed.
  apply index_Some in Hidx as [Hd _]. exists d. split; [done|].
  destruct (opening_self players dealer d deck h) as (Hps & Hdl & Hdk & Hf & Hlp & Hc).
  unfold seated. simpl. rewrite Hps, Hdl, Hf. split_and!; try done.
  apply next_index_lt. apply lookup_lt_Some in Hd. lia.
Qed.

(** C10. Current player after termination: in every world reachable from a
    constructed ronda the current player index is a valid index into the
    players sequence; once the ronda is finished [current_player] returns the
    dealer; and the call that finishes the ronda leaves the index where it
    was. *)
Theorem current_player_after_termination players dealer deck h w0 w :
  init players dealer deck h = Constructed w0 →
  reachable w0 w →
  _current_player (self w) < length (_players (self w))
  ∧ (∃ p, current_player w = Ok p w)
  ∧ (_finished (self w) = true → current_player w = Ok dealer w)
  ∧ ∀ own_card mesa_cards,
      _finished (self w) = false →
      _finished (self (world_of (play_turn own_card mesa_cards w))) = true →
      _current_player (self (world_of (play_turn own_card mesa_cards w)))
      = _current_player (self w).
Proof.
  intros Hinit Hreach.
  destruct (seated_init _ _ _ _ _ Hinit) as (d & Hd & Hs0).
  destruct (seated_reachable players dealer d Hd w0 w Hs0 Hreach)
    as (Hps & Hdl & Hcur & Hfin).
  split_and!.
  - by rewrite Hps.
  - rewrite current_player_eq, Hps.
    destruct (lookup_lt_is_Some_2 players _ Hcur) as [p ->]. by eexists.
  - intros Hf. by rewrite current_player_eq, Hps, (Hfin Hf).
  - intros own_card mesa_cards Hf Hf'.
    pose proof (play_turn_turn own_card mesa_cards w) as Ht.
    destruct Ht as [ | | | p | p w1 | p w1 | p w' w1 ? ? ? ? ? ? ? [Hself _] | p dlr w1 ];
      try done; cbn [world_of] in *; try subst w1;
      destruct (after_action_self w p own_card mesa_cards)
        as (Hps1 & Hd1 & Hdk1 & Hf1 & _ & Hc1).
    + done.
    + exact Hc1.
    + simpl in Hf'. congruence.
    + rewrite Hself in Hf'. simpl in Hf'. congruence.
    + simpl in Hf'. congruence.
Qed.

Lemma current_player_after_termination_witness :
  _finished (self table10_end) = true
  ∧ current_player table10_end = Ok 0 table10_end.
Proof.
  split; [vm_compute; reflexivity|].
  apply (current_player_after_termination [0; 1] 0 deck10 no_players table10
           table10_end).
  - vm_compute. reflexivity.
  - apply reachable_play_turns, reachable_start.
  - vm_compute. reflexivity.
Defined.

(** ** Counting the cards of a world *)

Lemma total_after_next w : total_cards (after_next w) = total_cards w.
Proof. done. Qed.

Lemma hand_after_next w q : hand_of (after_next w) q = hand_of w q.
Proof. done. Qed.

Lemma hand_after_finish w q : hand_of (after_finish w) q = hand_of w q.
Proof.
  unfold after_finish, hand_of. cbn [heap].
  destruct (decide (_last_picked_up (self w) = q)) as [<-|Hne].
  - by rewrite fn_lookup_insert.
  - by rewrite fn_lookup_insert_ne.
Qed.

Lemma hand_after_action w p own_card mesa_cards q :
  hand_of (after_action w p own_card mesa_cards) q
  = if decide (p = q) then remove_card own_card (hand_of w p) else hand_of w q.
Proof.
  unfold after_action, after_capture, after_drop, hand_of.
  destruct (is_capture mesa_cards); cbn [heap];
    (destruct (decide (p = q)) as [<-|Hne];
     [by rewrite fn_lookup_insert|by rewrite fn_lookup_insert_ne]).
Qed.

Lemma hand_after_deal w i p :
  NoDup (_players (self w)) →
  3 * length (_players (self w)) ≤ length (_deck (self w)) →
  _players (self w) !! i = Some p →
  hand_of (after_deal w) p = hand_of w p ++ take 3 (drop (3 * i) (_deck (self w)))
  ∧ length (take 3 (drop (3 * i) (_deck (self w)))) = 3.
Proof.
  intros Hnd Hlen Hi. unfold after_deal, hand_of. cbn [heap]. split.
  - by rewrite (dealt_heap_lookup _ _ _ i p Hnd Hi).
  - rewrite length_take, length_drop. apply lookup_lt_Some in Hi. lia.
Qed.

Lemma total_after_deal w :
  NoDup (_players (self w)) →
  3 * length (_players (self w)) ≤ length (_deck (self w)) →
  total_cards (after_deal w) = total_cards w.
Proof.
  intros Hnd Hlen. unfold total_cards.
  assert (sum_over (λ p, length (hand_of (after_deal w) p)) (_players (self w))
          = sum_over (λ p, length (hand_of w p)) (_players (self w))
            + 3 * length (_players (self w))) as Hhands.
  { rewrite <- sum_over_plus. apply sum_over_ext. intros p Hp.
    apply list_elem_of_lookup_1 in Hp as [i Hi].
    destruct (hand_after_deal w i p Hnd Hlen Hi) as [-> H3].
    rewrite length_app. lia. }
  assert (sum_over (λ p, length (pile_of (after_deal w) p)) (_players (self w))
          = sum_over (λ p, length (pile_of w p)) (_players (self w))) as Hpiles.
  { apply sum_over_ext. intros p _. unfold pile_of, after_deal. cbn [heap].
    by rewrite dealt_heap_pila. }
  change (_players (self (after_deal w))) with (_players (self w)).
  change (_mesa (self (after_deal w))) with (_mesa (self w)).
  change (_deck (self (after_deal w)))
    with (drop (3 * length (_players (self w))) (_deck (self w))).
  rewrite Hhands, Hpiles, length_drop. lia.
Qed.

(** The two sums after the object behind [p] has been replaced. *)
Lemma sums_after_put (w : World) (p : Ref) (pl : Player) (r : Ronda) :
  NoDup (_players r) → p ∈ _players r →
  sum_over (λ q, length (hand_of (mkWorld (<[p := pl]> (heap w)) r) q)) (_players r)
    + length (hand_of w p)
  = sum_over (λ q, length (hand_of w q)) (_players r) + length (current_hand pl)
  ∧ sum_over (λ q, length (pile_of (mkWorld (<[p := pl]> (heap w)) r) q)) (_players r)
    + length (pile_of w p)
  = sum_over (λ q, length (pile_of w q)) (_players r) + length (pila_cards (pila pl)).
Proof.
  intros Hnd Hin. split.
  - apply (sum_over_insert (λ x, length (current_hand x)) (heap w) p pl _ Hnd Hin).
  - apply (sum_over_insert (λ x, length (pila_cards (pila x))) (heap w) p pl _ Hnd Hin).
Qed.

Lemma total_after_action w p own_card mesa_cards :
  NoDup (_players (self w)) →
  p ∈ _players (self w) →
  valid_move w p own_card mesa_cards →
  NoDup (selected mesa_cards) →
  total_cards (after_action w p own_card mesa_cards) = total_cards w.
Proof.
  intros Hnd Hin [Hown Hmesa] Hsel.
  pose proof (remove_card_length _ _ Hown) as Hrem.
  pose proof (remove_cards_length _ _ Hsel Hmesa) as Hrems.
  unfold after_action, total_cards.
  destruct (is_capture mesa_cards).
  - unfold after_capture.
    destruct (sums_after_put w p
      (mkPlayer (remove_card own_card (hand_of w p))
                (add (pila (heap w p)) (own_card :: selected mesa_cards) false))
      (set_last_picked_up p
         (set_mesa (remove_cards (_mesa (self w)) (selected mesa_cards)) (self w)))
      Hnd Hin) as [Hh Hp].
    cbn [self set_last_picked_up set_mesa _players _deck _mesa current_hand pila
         add pila_cards] in *.
    rewrite length_app in Hp. cbn [length] in Hp. unfold pile_of in Hp at 2.
    lia.
  - unfold after_drop.
    destruct (sums_after_put w p
      (mkPlayer (remove_card own_card (hand_of w p)) (pila (heap w p)))
      (set_mesa (_mesa (self w) ++ [own_card]) (self w)) Hnd Hin) as [Hh Hp].
    cbn [self set_mesa _players _deck _mesa current_hand pila] in *.
    rewrite length_app. cbn [length]. unfold pile_of in Hp at 2.
    lia.
Qed.

Lemma total_after_finish w :
  NoDup (_players (self w)) →
  _last_picked_up (self w) ∈ _players (self w) →
  total_cards (after_finish w) = total_cards w + length (_mesa (self w)).
Proof.
  intros Hnd Hin. unfold after_finish, total_cards.
  destruct (sums_after_put w (_last_picked_up (self w))
    (mkPlayer (hand_of w (_last_picked_up (self w)))
              (add (pila (heap w (_last_picked_up (self w)))) (_mesa (self w)) false))
    (set_finished true (self w)) Hnd Hin) as [Hh Hp].
  cbn [self set_finished _players _deck _mesa current_hand pila add pila_cards] in *.
  rewrite length_app in Hp. unfold pile_of in Hp at 2.
  lia.
Qed.

(** ** The hands around the table *)

Lemma next_index i n :
  i < n → (i + 1) mod n = if decide (i + 1 = n) then 0 else i + 1.
Proof.
  intros Hi. case_decide as Hn.
  - rewrite Hn. apply Nat.Div0.mod_same.
  - apply Nat.mod_small. lia.
Qed.

Section table.
Context (players : list Ref) (dealer : Ref) (d : nat) (n0 : nat).
Hypothesis players_distinct : NoDup players.
Hypothesis dealer_at_d : players !! d = Some dealer.

(** After the action the acting seat has joined those that have played. *)
Lemma hands_after_action w p own_card mesa_cards k :
  _players (self w) = players →
  _current_player (self w) < length players →
  players !! _current_player (self w) = Some p →
  own_card ∈ hand_of w p →
  1 ≤ k ≤ 3 →
  (∀ i q, players !! i = Some q →
     length (hand_of w q)
     = if decide (place players d i < place players d (_current_player (self w)))
       then k - 1 else k) →
  ∀ i q, players !! i = Some q →
    length (hand_of (after_action w p own_card mesa_cards) q)
    = if decide (place players d i ≤ place players d (_current_player (self w)))
      then k - 1 else k.
Proof using players_distinct dealer_at_d.
  intros Hps Hcur Hp Hown Hk Hhands i q Hq.
  pose proof (lookup_lt_Some _ _ _ Hq) as Hi.
  pose proof (lookup_lt_Some _ _ _ dealer_at_d) as Hd.
  rewrite hand_after_action.
  destruct (decide (p = q)) as [<-|Hne].
  - assert (i = _current_player (self w)) as ->
      by (eapply NoDup_lookup; eauto).
    pose proof (remove_card_length _ _ Hown) as Hrem.
    rewrite (Hhands _ _ Hp) in Hrem.
    rewrite decide_False in Hrem by lia.
    rewrite decide_True by lia. lia.
  - rewrite (Hhands _ _ Hq).
    assert (i ≠ _current_player (self w)) as Hic by congruence.
    assert (place players d i ≠ place players d (_current_player (self w))) as Hpl.
    { unfold place. repeat case_decide; lia. }
    repeat case_decide; lia.
Qed.

(** When the dealer has played the last card, nobody holds a card. *)
Lemma hand_done_all_empty w p own_card mesa_cards :
  _players (self w) = players →
  _current_player (self w) < length players →
  hands_in_step players d w →
  players !! _current_player (self w) = Some p →
  players !! d = Some p →
  own_card ∈ hand_of w p →
  hand_of (after_action w p own_card mesa_cards) p = [] →
  ∀ q, q ∈ players → hand_of (after_action w p own_card mesa_cards) q = [].
Proof using players_distinct dealer_at_d.
  intros Hps Hcur (k & Hk & Hhands) Hp Hdlr Hown Hh q [i Hq]%list_elem_of_lookup_1.
  pose proof (lookup_lt_Some _ _ _ dealer_at_d) as Hd.
  pose proof (hands_after_action w p own_card mesa_cards k Hps Hcur Hp
                Hown Hk Hhands) as Hhands1.
  assert (_current_player (self w) = d) as Hcd
    by exact (NoDup_lookup _ _ _ _ players_distinct Hp Hdlr).
  apply length_zero_iff_nil.
  pose proof (lookup_lt_Some _ _ _ Hq) as Hi.
  pose proof (Hhands1 _ _ Hp) as Hkp.
  rewrite Hh in Hkp. rewrite decide_True in Hkp by lia. simpl in Hkp.
  rewrite (Hhands1 _ _ Hq). rewrite decide_True; [lia|].
  rewrite Hcd. unfold place. repeat case_decide; lia.
Qed.

Lemma at_table_turn own_card mesa_cards w w' :
  at_table players d n0 w →
  NoDup (selected mesa_cards) →
  play_turn own_card mesa_cards w = Ok tt w' →
  at_table players d n0 w'.
Proof using players_distinct dealer_at_d.
  intros (Hps & Hdl & Hcur & Hlp & Hinv) Hsel Hturn.
  pose proof (play_turn_turn own_card mesa_cards w) as Ht.
  rewrite Hturn in Ht.
  pose proof (lookup_lt_Some _ _ _ dealer_at_d) as Hd.
  inversion Ht as [ | | | | p w1 Hfin Hp Hv Hdlr Hh Hdk
                    | p w1 Hfin Hp Hv Hdlr Hh Hdk Hlen
                    | | p dlr w1 Hfin Hp Hv Hdlr Hnd ];
    subst w'; subst w1;
    rewrite Hfin in Hinv; destruct Hinv as [Htot (k & Hk & Hhands)];
    rewrite Hps in Hp; rewrite Hps, Hdl in Hdlr;
    destruct (after_action_self w p own_card mesa_cards)
      as (Hps1 & Hd1 & Hdk1 & Hf1 & _ & Hc1);
    pose proof (after_action_last_picked_up w p own_card mesa_cards) as Hlp1;
    assert (p ∈ players) as Hpin by (by eapply list_elem_of_lookup_2);
    assert (_last_picked_up (self (after_action w p own_card mesa_cards)) ∈ players)
      as Hlp1' by (rewrite Hlp1; by destruct (is_capture _));
    pose proof (total_after_action w p own_card mesa_cards
                  ltac:(by rewrite Hps) ltac:(by rewrite Hps) Hv Hsel) as Htot1;
    pose proof (hands_after_action w p own_card mesa_cards k Hps Hcur Hp
                  (proj1 Hv) Hk Hhands) as Hhands1.
  - (* the ronda ends *)
    assert (_current_player (self w) = d) as Hcd
      by exact (NoDup_lookup _ _ _ _ players_distinct Hp Hdlr).
    pose proof (hand_done_all_empty w p own_card mesa_cards Hps Hcur
                  (ex_intro _ k (conj Hk Hhands)) Hp Hdlr (proj1 Hv) Hh) as Hempty.
    unfold at_table. cbn [after_finish self set_finished _players _dealer
      _current_player _last_picked_up _finished _deck _mesa].
    rewrite Hps1, Hd1, Hc1, Hdk1. split_and!; try done.
    + intros q Hq. rewrite hand_after_finish. by apply Hempty.
    + rewrite total_after_finish by (by rewrite Hps1, ?Hps). lia.
  - (* a new hand for everybody *)
    rewrite Hps in Hlen.
    assert (_current_player (self w) = d) as Hcd
      by exact (NoDup_lookup _ _ _ _ players_distinct Hp Hdlr).
    set (w1 := after_action w p own_card mesa_cards) in *.
    unfold at_table.
    destruct (after_next_deal_fixed w1) as (Hps2 & Hd2 & Hf2 & Hlp2 & _).
    rewrite Hps2, Hd2, Hf2, Hlp2, Hps1, Hd1, Hf1, Hfin.
    split_and!; try done.
    + simpl. rewrite Hps1, Hps. apply next_index_lt. lia.
    + rewrite total_after_next, total_after_deal by (by rewrite Hps1, ?Hdk1, ?Hps).
      lia.
    + exists 3. split; [lia|]. intros i q Hq.
      pose proof (lookup_lt_Some _ _ _ Hq) as Hi.
      rewrite hand_after_next.
      destruct (hand_after_deal w1 i q) as [-> H3];
        [by rewrite Hps1, Hps|by rewrite Hps1, Hdk1, Hps|by rewrite Hps1, Hps|].
      rewrite length_app, H3.
      pose proof (Hhands1 _ _ Hp) as Hkp.
      rewrite Hh in Hkp. rewrite decide_True in Hkp by lia. simpl in Hkp.
      rewrite (Hhands1 _ _ Hq). rewrite decide_True.
      * rewrite decide_False; [lia|].
        cbn [after_next after_deal self set_current_player set_deck
             _current_player _players].
        rewrite Hps1, Hc1, Hps, next_index by done.
        rewrite Hcd. unfold place. repeat case_decide; lia.
      * rewrite Hcd. unfold place. repeat case_decide; lia.
  - (* the turn passes *)
    set (w1 := after_action w p own_card mesa_cards) in *.
    unfold at_table.
    cbn [after_next self set_current_player _players _dealer _current_player
         _last_picked_up _finished].
    rewrite Hps1, Hd1, Hf1, Hc1, Hfin, Hps. split_and!; try done.
    + apply next_index_lt. lia.
    + rewrite total_after_next. lia.
    + destruct (decide (_current_player (self w) = d)) as [Hcd|Hcd].
      * (* the dealer still holds cards *)
        assert (p = dlr) as -> by (rewrite Hcd in Hp; congruence).
        pose proof (Hhands1 _ _ Hp) as Hkp.
        rewrite decide_True in Hkp by lia.
        assert (hand_of w1 dlr ≠ []) as Hne by tauto.
        assert (length (hand_of w1 dlr) ≠ 0) as Hlen
          by (by rewrite length_zero_iff_nil).
        exists (k - 1). split; [lia|]. intros i q Hq.
        pose proof (lookup_lt_Some _ _ _ Hq) as Hi.
        rewrite hand_after_next, (Hhands1 _ _ Hq).
        cbn [after_next self set_current_player _current_player _players].
        rewrite Hps1, Hc1, Hps, next_index by done.
        rewrite Hcd. rewrite decide_True by (unfold place; repeat case_decide; lia).
        rewrite decide_False; [done|].
        unfold place. repeat case_decide; lia.
      * exists k. split; [done|]. intros i q Hq.
        pose proof (lookup_lt_Some _ _ _ Hq) as Hi.
        rewrite hand_after_next, (Hhands1 _ _ Hq).
        cbn [after_next self set_current_player _current_player _players].
        rewrite Hps1, Hc1, Hps, next_index by done.
        unfold place. repeat case_decide; lia.
Qed.

Lemma at_table_played w0 w : at_table players d n0 w0 → played w0 w → at_table players d n0 w.
Proof using players_distinct dealer_at_d.
  intros H0. induction 1 as [|w own_card mesa_cards w' Hpl IH Hsel Hturn]; [done|].
  by eapply at_table_turn.
Qed.
End table.

Lemma total_opening players dealer d deck h :
  NoDup players →
  dealer ∈ players →
  (∀ p, p ∈ players → h p = fresh_player) →
  4 ≤ length deck →
  total_cards (opening players dealer d deck h) = length deck
  ∧ ∀ p, p ∈ players → hand_of (opening players dealer d deck h) p = [].
Proof.
  intros Hnd Hin Hfresh Hlen.
  assert (∀ r, sum_over (λ q, length (hand_of (mkWorld h r) q)) players = 0)
    as Hh0.
  { intros r. apply sum_over_zero. intros p Hp. unfold hand_of. cbn [heap].
    by rewrite (Hfresh p Hp). }
  assert (∀ r, sum_over (λ q, length (pile_of (mkWorld h r) q)) players = 0)
    as Hp0.
  { intros r. apply sum_over_zero. intros p Hp. unfold pile_of. cbn [heap].
    by rewrite (Hfresh p Hp). }
  unfold opening. case_decide as H15.
  - split.
    + unfold total_cards.
      set (r1 := mkRonda players d (drop 4 deck) false dealer true [] d).
      destruct (sums_after_put (mkWorld h r1) dealer
        (mkPlayer (current_hand (h dealer))
                  (add (pila (h dealer)) (take 4 deck) true))
        r1 Hnd Hin) as [Hh Hp].
      rewrite Hh0 in Hh. rewrite Hp0 in Hp.
      unfold hand_of in Hh at 2. unfold pile_of in Hp at 2.
      cbn [self heap _players _deck _mesa current_hand pila add pila_cards r1] in *.
      rewrite length_app, length_take in Hp.
      assert (length (pila_cards (pila (h dealer))) = 0) as Hfd
        by (by rewrite (Hfresh _ Hin)).
      rewrite length_drop. cbn [length]. lia.
    + intros p Hp. unfold hand_of. cbn [heap].
      destruct (decide (dealer = p)) as [<-|Hne].
      * rewrite fn_lookup_insert. cbn [current_hand]. by rewrite (Hfresh _ Hin).
      * rewrite fn_lookup_insert_ne by done. by rewrite (Hfresh _ Hp).
  - split.
    + unfold total_cards. rewrite Hh0, Hp0.
      cbn [self _players _deck _mesa]. rewrite length_drop, length_take. lia.
    + intros p Hp. unfold hand_of. cbn [heap]. by rewrite (Hfresh _ Hp).
Qed.

Lemma at_table_init players dealer deck h w0 :
  NoDup players →
  (∀ p, p ∈ players → h p = fresh_player) →
  init players dealer deck h = Constructed w0 →
  ∃ d, players !! d = Some dealer ∧ at_table players d (length deck) w0.
Proof.
  intros Hnd Hfresh (d & Hidx & Hlen & ->)%init_Constructed.
  apply index_Some in Hidx as [Hd _]. exists d. split; [done|].
  assert (dealer ∈ players) as Hin by (by eapply list_elem_of_lookup_2).
  pose proof (lookup_lt_Some _ _ _ Hd) as Hdlt.
  destruct (opening_self players dealer d deck h) as (Hps & Hdl & Hdk & Hf & Hlp & Hc).
  destruct (total_opening players dealer d deck h Hnd Hin Hfresh ltac:(lia))
    as [Htot Hempty].
  set (w := opening players dealer d deck h) in *.
  destruct (after_next_deal_fixed w) as (Hps2 & Hd2 & Hf2 & Hlp2 & _).
  unfold at_table. rewrite Hps2, Hd2, Hf2, Hlp2, Hps, Hdl, Hf, Hlp.
  assert (3 * length (_players (self w)) ≤ length (_deck (self w))) as Hlen'.
  { rewrite Hps, Hdk, length_drop. lia. }
  split_and!; try done.
  - simpl. rewrite Hps. apply next_index_lt. lia.
  - rewrite total_after_next, total_after_deal by (done || by rewrite Hps). done.
  - exists 3. split; [lia|]. intros i q Hq.
    rewrite hand_after_next.
    destruct (hand_after_deal w i q) as [-> H3]; [by rewrite Hps|done|by rewrite Hps|].
    rewrite length_app, H3, Hempty by (by eapply list_elem_of_lookup_2).
    rewrite decide_False; [done|].
    cbn [after_next after_deal self set_current_player set_deck _current_player _players].
    rewrite Hps, Hc, next_index by done.
    unfold place. repeat case_decide; lia.
Qed.

(** ** Conservation of cards *)

(** While the ronda is being played the cards of the deck are all there,
    once each; in the finished ronda the cards left on the mesa are counted
    twice, on the mesa and in the pile of the last picker. *)
Lemma cards_counted players dealer deck h w0 w :
  NoDup players →
  (∀ p, p ∈ players → h p = fresh_player) →
  init players dealer deck h = Constructed w0 →
  played w0 w →
  total_cards w
  = length deck + (if _finished (self w) then length (_mesa (self w)) else 0).
Proof.
  intros Hnd Hfresh Hinit Hplayed.
  destruct (at_table_init _ _ _ _ _ Hnd Hfresh Hinit) as (d & Hd & H0).
  destruct (at_table_played players dealer d (length deck) Hnd Hd w0 w H0 Hplayed)
    as (_ & _ & _ & _ & Hinv).
  destruct (_finished (self w)); [tauto|]. destruct Hinv as [-> _]. lia.
Qed.

(** C1. Card conservation, at the point where the code loses it: two
    players, a deck of 10 cards, every card dropped on the mesa.  The sixth
    turn ends the ronda; the 10 cards of the mesa are appended to the pile of
    the last picker and stay on the mesa, and the count
    deckRemaining + Σ|hands| + |mesa| + Σ|piles| is 20. *)
Theorem conservation_lost_at_the_end :
  init [0; 1] 0 deck10 no_players = Constructed table10
  ∧ play_turns drops10 table10 = Ok tt table10_end
  ∧ _finished (self table10_end) = true
  ∧ length deck10 = 10
  ∧ total_cards table10_last = 10
  ∧ length (_mesa (self table10_end)) = 10
  ∧ length (pile_of table10_end 0) = 10
  ∧ total_cards table10_end = 20.
Proof. split_and!; vm_compute; reflexivity. Qed.

(** ** Dealing a new hand *)

Lemma play_action_Ok own_card mesa_cards w w1 :
  play_action own_card mesa_cards w = Ok tt w1 →
  ∃ p, _players (self w) !! _current_player (self w) = Some p
     ∧ valid_move w p own_card mesa_cards
     ∧ w1 = after_action w p own_card mesa_cards.
Proof.
  rewrite play_action_eq.
  destruct (_players (self w) !! _current_player (self w)) as [p|]; [|done].
  case_decide as Hv; [|done]. intros [= <-]. by exists p.
Qed.

Lemma redealt_grows w1 w2 p :
  redealt w1 w2 → p ∈ _players (self w1) →
  length (hand_of w2 p) = length (hand_of w1 p) + 3.
Proof.
  intros [_ H] [i Hi]%list_elem_of_lookup_1.
  destruct (H i p Hi) as [H3 ->]. rewrite length_app. lia.
Qed.

Lemma play_branch_redeals w1 p :
  NoDup (_players (self w1)) →
  _finished (self w1) = false →
  _players (self w1) !! _current_player (self w1) = Some p →
  _players (self w1) !! _dealer (self w1) = Some p →
  hand_of w1 p = [] →
  3 * length (_players (self w1)) ≤ length (_deck (self w1)) →
  play_branch w1 = Ok tt (after_next (after_deal w1))
  ∧ redealt w1 (after_next (after_deal w1)).
Proof.
  intros Hnd Hfin Hp Hd Hh Hlen.
  pose proof (lookup_lt_Some _ _ _ Hp) as Hlt.
  split.
  - rewrite (play_branch_eq w1 p p Hp Hd), decide_True by done.
    rewrite decide_False.
    + unfold mbind, M_bind, bind.
      rewrite deal_hands_eq, deal_each_ok by done. fold (after_deal w1).
      rewrite next_player_eq; [done|].
      simpl. intros E. rewrite E in Hlt. simpl in Hlt. lia.
    + intros E. rewrite E in Hlen. simpl in Hlen. lia.
  - split; [done|]. intros i q Hq. rewrite hand_after_next.
    destruct (hand_after_deal w1 i q Hnd Hlen Hq) as [-> H3]. done.
Qed.

Lemma play_branch_redealt w1 p dlr w2 :
  _finished (self w1) = false →
  _players (self w1) !! _current_player (self w1) = Some p →
  _players (self w1) !! _dealer (self w1) = Some dlr →
  play_branch w1 = Ok tt w2 →
  redealt w1 w2 →
  p = dlr ∧ hand_of w1 p = []
  ∧ 3 * length (_players (self w1)) ≤ length (_deck (self w1)).
Proof.
  intros Hfin Hp Hd Hturn Hre.
  assert (p ∈ _players (self w1)) as Hpin by (by eapply list_elem_of_lookup_2).
  pose proof (redealt_grows w1 w2 p Hre Hpin) as Hgrow.
  assert (_players (self w1) ≠ []) as Hne.
  { intros E. by rewrite E in Hp. }
  rewrite (play_branch_eq w1 p dlr Hp Hd) in Hturn.
  destruct (decide (p = dlr ∧ hand_of w1 p = [])) as [[-> Hh]|Hnot].
  - split; [done|]. split; [done|].
    destruct (decide (_deck (self w1) = [])) as [Hdk|Hdk].
    + injection Hturn as <-. rewrite hand_after_finish in Hgrow. lia.
    + destruct (decide (3 * length (_players (self w1)) ≤ length (_deck (self w1))))
        as [Hlen|Hlen]; [done|].
      unfold mbind, M_bind, bind in Hturn.
      rewrite deal_hands_eq in Hturn by done.
      destruct (deal_each_short (_players (self w1)) w1) as [w' Hw']; [lia|].
      by rewrite Hw' in Hturn.
  - rewrite next_player_eq in Hturn by done.
    injection Hturn as <-. rewrite hand_after_next in Hgrow. lia.
Qed.

(** C5, as amended.  Redeal trigger: in a ronda played from a constructor
    call with distinct, fresh players, a call of [play_turn] whose action
    passes deals a fresh hand of exactly 3 cards to every player, in the
    order of the players sequence, if and only if after the action the
    current player is the dealer, the dealer's hand is empty and the deck
    holds at least 3·N cards.  Such a redeal happens only when every
    player's hand is empty, and leaves every player with exactly 3 cards. *)
Theorem redeal_trigger players dealer deck h w0 w own_card mesa_cards w1 :
  NoDup players →
  (∀ p, p ∈ players → h p = fresh_player) →
  init players dealer deck h = Constructed w0 →
  played w0 w →
  _finished (self w) = false →
  play_action own_card mesa_cards w = Ok tt w1 →
  ((∃ w2, play_turn own_card mesa_cards w = Ok tt w2 ∧ redealt w1 w2)
   ↔ current_player w1 = Ok dealer w1
     ∧ hand_of w1 dealer = []
     ∧ 3 * length players ≤ length (_deck (self w1)))
  ∧ ∀ w2, play_turn own_card mesa_cards w = Ok tt w2 → redealt w1 w2 →
      (∀ p, p ∈ players → hand_of w1 p = [])
      ∧ (∀ p, p ∈ players → length (hand_of w2 p) = 3).
Proof.
  intros Hnd Hfresh Hinit Hplayed Hfin Hact.
  destruct (at_table_init _ _ _ _ _ Hnd Hfresh Hinit) as (d & Hd & H0).
  destruct (at_table_played players dealer d (length deck) Hnd Hd w0 w H0 Hplayed)
    as (Hps & Hdl & Hcur & Hlp & Hinv).
  rewrite Hfin in Hinv. destruct Hinv as [Htot Hhands].
  destruct (play_action_Ok _ _ _ _ Hact) as (p & Hp & Hv & ->).
  destruct (after_action_self w p own_card mesa_cards)
    as (Hps1 & Hd1 & Hdk1 & Hf1 & _ & Hc1).
  assert (play_turn own_card mesa_cards w
          = play_branch (after_action w p own_card mesa_cards)) as Hturn.
  { by rewrite play_turn_eq, Hfin, Hact. }
  rewrite Hturn.
  pose proof (hand_done_all_empty players dealer d Hnd Hd w p own_card mesa_cards
                Hps Hcur Hhands) as Hempty.
  rewrite Hps in Hp. specialize (Hempty Hp).
  set (w1 := after_action w p own_card mesa_cards) in *.
  assert (_players (self w1) !! _current_player (self w1) = Some p) as Hp1
    by (by rewrite Hps1, Hc1, Hps).
  assert (_players (self w1) !! _dealer (self w1) = Some dealer) as Hdlr1
    by (by rewrite Hps1, Hd1, Hps, Hdl).
  assert (_finished (self w1) = false) as Hfin1 by (by rewrite Hf1).
  assert (NoDup (_players (self w1))) as Hnd1 by (by rewrite Hps1, Hps).
  split; [split|].
  - intros (w2 & Hw2 & Hre).
    destruct (play_branch_redealt w1 p dealer w2 Hfin1 Hp1 Hdlr1 Hw2 Hre)
      as (-> & Hh & Hlen).
    rewrite current_player_eq, Hp1. rewrite Hps1, Hps in Hlen. done.
  - intros (Hcp & Hh & Hlen).
    rewrite current_player_eq, Hp1 in Hcp. injection Hcp as ->.
    exists (after_next (after_deal w1)).
    apply (play_branch_redeals w1 dealer); try done. by rewrite Hps1, Hps.
  - intros w2 Hw2 Hre.
    destruct (play_branch_redealt w1 p dealer w2 Hfin1 Hp1 Hdlr1 Hw2 Hre)
      as (-> & Hh & Hlen).
    specialize (Hempty Hd (proj1 Hv) Hh).
    split; [done|]. intros q Hq.
    rewrite (redealt_grows w1 w2 q Hre) by (by rewrite Hps1, Hps).
    by rewrite Hempty.
Qed.

Lemma played_play_turns moves : ∀ w0 w w',
  played w0 w →
  Forall (λ m, NoDup (selected m.2)) moves →
  play_turns moves w = Ok tt w' →
  played w0 w'.
Proof.
  induction moves as [|[own_card mesa_cards] moves IH]; intros w0 w w' Hpl Hsel.
  - intros [= <-]. done.
  - apply Forall_cons in Hsel as [Hsel1 Hsel].
    cbn [play_turns]. unfold mbind, M_bind, bind.
    destruct (play_turn own_card mesa_cards w) as [[] w1|e w1] eqn:Hturn; [|done].
    apply IH; [|done]. by eapply played_turn.
Qed.

Lemma redeal_trigger_witness :
  ((∃ w2, play_turn (c 7 6) None table16_last = Ok tt w2
        ∧ redealt table16_dropped w2)
   ↔ current_player table16_dropped = Ok 0 table16_dropped
     ∧ hand_of table16_dropped 0 = []
     ∧ 3 * length [0; 1] ≤ length (_deck (self table16_dropped)))
  ∧ ∀ w2, play_turn (c 7 6) None table16_last = Ok tt w2 →
      redealt table16_dropped w2 →
      (∀ p, p ∈ [0; 1] → hand_of table16_dropped p = [])
      ∧ (∀ p, p ∈ [0; 1] → length (hand_of w2 p) = 3).
Proof.
  apply (redeal_trigger [0; 1] 0 deck16 no_players table16 table16_last
           (c 7 6) None table16_dropped).
  - apply (bool_decide_unpack _). by vm_compute.
  - intros p _. reflexivity.
  - vm_compute. reflexivity.
  - apply (played_play_turns (take 5 drops10) table16 table16 table16_last).
    + apply played_start.
    + apply (bool_decide_unpack _). by vm_compute.
    + vm_compute. reflexivity.
  - vm_compute. reflexivity.
  - vm_compute. reflexivity.
Defined.

(** The second hand is dealt on that table. *)
Example redeal_on_table16 :
  play_turn (c 7 6) None table16_last
  = Ok tt (after_next (after_deal table16_dropped))
  ∧ hand_of (after_next (after_deal table16_dropped)) 0
    = [c 4 10; c 5 11; c 6 12]
  ∧ hand_of (after_next (after_deal table16_dropped)) 1
    = [c 7 13; c 1 14; c 2 15].
Proof. split_and!; vm_compute; reflexivity. Qed.

(** The claim as stated fails on a deck of 13 cards for two players: in the
    sixth turn the dealer, as current player, empties the hand, the deck
    holds 3 cards, and yet [play_turn] raises: player 0 has been dealt the
    3 cards, player 1 none. *)
Lemma redeal_with_short_deck :
  init [0; 1] 0 deck13 no_players = Constructed table13
  ∧ play_turns (take 5 drops10) table13 = Ok tt table13_last
  ∧ play_action (c 7 6) None table13_last = Ok tt table13_dropped
  ∧ current_player table13_dropped = Ok 0 table13_dropped
  ∧ hand_of table13_dropped 0 = []
  ∧ length (_deck (self table13_dropped)) = 3
  ∧ play_turn (c 7 6) None table13_last = Err DeckExhaustedError table13_stuck
  ∧ hand_of table13_stuck 0 = [c 4 10; c 5 11; c 6 12]
  ∧ hand_of table13_stuck 1 = []
  ∧ ¬ ∃ w2, play_turn (c 7 6) None table13_last = Ok tt w2
          ∧ redealt table13_dropped w2.
Proof.
  assert (play_turn (c 7 6) None table13_last
          = Err DeckExhaustedError table13_stuck) as Hraise
    by (vm_compute; reflexivity).
  split_and!; try (vm_compute; reflexivity).
  intros (w2 & Hturn & _). congruence.
Qed.


(** * Further properties of the engine *)

(** ** Dealing from a deck that runs short *)

Lemma deal_each_cons p ps w :
  3 ≤ length (_deck (self w)) →
  deal_each (p :: ps) w =
    deal_each ps
      (mkWorld (<[p := pick_up_hand (heap w p) (take 3 (_deck (self w)))]> (heap w))
               (set_deck (drop 3 (_deck (self w))) (self w))).
Proof.
  intros H3. cbn [deal_each]. unfold mbind, M_bind, bind at 1.
  rewrite deck_deal_ok by done. done.
Qed.

Lemma deal_each_short_eq ps : ∀ w,
  length (_deck (self w)) < 3 * length ps →
  deal_each ps w =
    Err DeckExhaustedError
      (mkWorld
         (dealt_heap (take (length (_deck (self w)) / 3) ps) (heap w) (_deck (self w)))
         (set_deck (drop (3 * (length (_deck (self w)) / 3)) (_deck (self w))) (self w))).
Proof.
  induction ps as [|p ps IH]; intros w Hlen; [simpl in Hlen; lia|].
  destruct (decide (3 ≤ length (_deck (self w)))) as [H3|H3].
  - rewrite deal_each_cons by done.
    rewrite IH by (cbn [self _deck set_deck]; rewrite length_drop; simpl in Hlen; lia).
    cbn [self heap set_deck _deck]. rewrite length_drop, drop_drop.
    assert (length (_deck (self w)) / 3 = S ((length (_deck (self w)) - 3) / 3)) as ->.
    { set (n := length (_deck (self w))) in *.
      replace n with (1 * 3 + (n - 3)) at 1 by lia.
      rewrite Nat.div_add_l by lia. lia. }
    cbn [take dealt_heap]. unfold set_deck. cbn [_players _dealer _deck _finished
      _last_picked_up _dealt_escoba _mesa _current_player].
    do 4 f_equal. lia.
  - cbn [deal_each]. unfold mbind, M_bind, bind at 1.
    rewrite deck_deal_short by lia.
    rewrite Nat.div_small by lia. cbn [take dealt_heap drop Nat.mul].
    by destruct w as [h []].
Qed.

(** X1. [_deal_hands] on a deck that cannot serve every player: it raises
    [DeckExhaustedError] after it has dealt a hand to as many players, from
    the front of the players sequence, as the deck had three cards for; the
    later players receive nothing, fewer than three cards stay in the deck
    and nothing else of the ronda changes. *)
Theorem deal_hands_runs_short w :
  _finished (self w) = false →
  NoDup (_players (self w)) →
  length (_deck (self w)) < 3 * length (_players (self w)) →
  ∃ w', _deal_hands w = Err DeckExhaustedError w'
    ∧ _deck (self w') = drop (3 * (length (_deck (self w)) / 3)) (_deck (self w))
    ∧ length (_deck (self w')) < 3
    ∧ (∀ i p, _players (self w) !! i = Some p →
         hand_of w' p =
           if decide (i < length (_deck (self w)) / 3)
           then hand_of w p ++ take 3 (drop (3 * i) (_deck (self w)))
           else hand_of w p)
    ∧ only_dealt w w'.
Proof.
  intros Hfin Hnd Hlen.
  pose proof (deal_each_only_dealt (_players (self w)) w) as Hod.
  rewrite deal_hands_eq by done.
  rewrite deal_each_short_eq in * by done.
  eexists. split; [done|]. cbn [world_of] in Hod.
  set (q := length (_deck (self w)) / 3) in *.
  assert (3 * q ≤ length (_deck (self w)) < 3 * q + 3) as Hq.
  { unfold q. pose proof (Nat.div_mod_eq (length (_deck (self w))) 3).
    pose proof (Nat.mod_upper_bound (length (_deck (self w))) 3). lia. }
  cbn [self heap set_deck _deck]. split_and!; try done.
  - rewrite length_drop. lia.
  - intros i p Hi. unfold hand_of. cbn [heap].
    pose proof (lookup_lt_Some _ _ _ Hi) as Hilt.
    case_decide as Hiq.
    + rewrite (dealt_heap_lookup _ _ _ i p); [done| |].
      * eapply sublist_NoDup; [done|apply sublist_take].
      * rewrite lookup_take_lt by done. done.
    + rewrite dealt_heap_notin; [done|].
      intros [j Hj]%list_elem_of_lookup_1.
      pose proof (lookup_lt_Some _ _ _ Hj) as Hjlt.
      rewrite length_take in Hjlt.
      rewrite lookup_take_lt in Hj by lia.
      assert (i = j) by (by eapply NoDup_lookup). lia.
Qed.

Lemma deal_hands_runs_short_witness :
  ∃ w', _deal_hands table13_dropped = Err DeckExhaustedError w'
    ∧ _deck (self w') = []
    ∧ hand_of w' 0 = [c 4 10; c 5 11; c 6 12]
    ∧ hand_of w' 1 = [].
Proof.
  destruct (deal_hands_runs_short table13_dropped)
    as (w' & H1 & H2 & H3 & H4 & H5).
  - vm_compute. reflexivity.
  - apply (bool_decide_unpack _). by vm_compute.
  - vm_compute. lia.
  - exists w'. split; [done|]. split; [rewrite H2; vm_compute; reflexivity|].
    split.
    + rewrite (H4 0 0) by (vm_compute; reflexivity). vm_compute. reflexivity.
    + rewrite (H4 1 1) by (vm_compute; reflexivity). vm_compute. reflexivity.
Defined.

(** ** Passing the turn *)

Lemma next_player_times_eq n : ∀ w,
  _current_player (self w) < length (_players (self w)) →
  next_player_times n w =
    Ok tt (mkWorld (heap w)
             (set_current_player
                ((_current_player (self w) + n) mod length (_players (self w)))
                (self w))).
Proof.
  induction n as [|n IH]; intros w Hcur.
  - cbn [next_player_times]. rewrite Nat.add_0_r, Nat.mod_small by done.
    by destruct w as [h []].
  - cbn [next_player_times]. unfold mbind, M_bind, bind.
    rewrite next_player_eq by (intros E; rewrite E in Hcur; simpl in Hcur; lia).
    rewrite IH by (simpl; apply next_index_lt; lia).
    unfold after_next, set_current_player.
    cbn [heap self _players _dealer _deck _finished _last_picked_up _dealt_escoba
         _mesa _current_player].
    rewrite Nat.Div0.add_mod_idemp_l. do 4 f_equal. lia.
Qed.

(** X2. [_next_player] walks round the table: from a valid index, [n] calls
    in a row leave the index at (index + n) mod N and touch nothing else, and
    N calls, N the number of players, bring the ronda back to the very world
    it started from.  With no players the call raises [ZeroDivisionError]. *)
Theorem next_player_round w n :
  _current_player (self w) < length (_players (self w)) →
  (∃ w', next_player_times n w = Ok tt w'
      ∧ _current_player (self w')
        = (_current_player (self w) + n) mod length (_players (self w))
      ∧ heap w' = heap w
      ∧ set_current_player (_current_player (self w)) (self w') = self w)
  ∧ next_player_times (length (_players (self w))) w = Ok tt w
  ∧ ∀ w0, _players (self w0) = [] → _next_player w0 = Err ZeroDivisionError w0.
Proof.
  intros Hcur. split_and!.
  - rewrite next_player_times_eq by done. eexists. split; [done|].
    cbn [self heap]. split_and!; try done. by destruct w as [h []].
  - rewrite next_player_times_eq by done.
    replace (_current_player (self w) + length (_players (self w)))
      with (_current_player (self w) + 1 * length (_players (self w))) by lia.
    rewrite Nat.Div0.mod_add, Nat.mod_small by done.
    by destruct w as [h []].
  - intros w0 Hnil. unfold _next_player.
    unfold mbind, M_bind, bind, get_self. by rewrite Hnil.
Qed.

Lemma next_player_round_witness :
  (∃ w', next_player_times 5 table10 = Ok tt w'
      ∧ _current_player (self w') = (_current_player (self table10) + 5) mod 2
      ∧ heap w' = heap table10
      ∧ set_current_player (_current_player (self table10)) (self w') = self table10)
  ∧ next_player_times (length (_players (self table10))) table10 = Ok tt table10
  ∧ ∀ w0, _players (self w0) = [] → _next_player w0 = Err ZeroDivisionError w0.
Proof.
  apply (next_player_round table10 5). vm_compute. lia.
Defined.

(** X3. The turn passes clockwise: a call of [play_turn] that returns
    without ending the ronda leaves the current player index at
    (index + 1) mod N, redeal or not; a call that raises, and the call that
    ends the ronda, leave the index where it was. *)
Theorem turn_passes_clockwise own_card mesa_cards w :
  _finished (self w) = false →
  let r := play_turn own_card mesa_cards w in
  _current_player (self (world_of r)) =
    if bool_decide (raised r = None) && negb (_finished (self (world_of r)))
    then (_current_player (self w) + 1) mod length (_players (self w))
    else _current_player (self w).
Proof.
  intros Hfin r. subst r.
  pose proof (play_turn_turn own_card mesa_cards w) as Ht.
  destruct Ht as [ | | | p | p w1 | p w1 | p w' w1 ? ? ? ? ? ? ? [Hself _] | p dlr w1 ];
    try done; cbn [world_of raised]; try subst w1;
    destruct (after_action_self w p own_card mesa_cards)
      as (Hps1 & Hd1 & Hdk1 & Hf1 & _ & Hc1).
  - done.
  - done.
  - rewrite bool_decide_eq_true_2 by done.
    cbn [after_next after_deal self set_current_player set_deck _finished
         _current_player _players andb].
    rewrite Hf1, Hfin, Hps1, Hc1. done.
  - rewrite Hself. done.
  - rewrite bool_decide_eq_true_2 by done.
    cbn [after_next self set_current_player _finished _current_player _players
         andb].
    rewrite Hf1, Hfin, Hps1, Hc1. done.
Qed.

Lemma turn_passes_clockwise_witness :
  _current_player (self table16_last) = 0
  ∧ _current_player (self (world_of (play_turn (c 7 6) None table16_last))) = 1
  ∧ _current_player (self (world_of (play_turn (c 9 99) None table16_last))) = 0.
Proof.
  split; [vm_compute; reflexivity|]. split.
  - rewrite (turn_passes_clockwise (c 7 6) None table16_last)
      by (vm_compute; reflexivity).
    vm_compute. reflexivity.
  - rewrite (turn_passes_clockwise (c 9 99) None table16_last)
      by (vm_compute; reflexivity).
    vm_compute. reflexivity.
Defined.

(** ** More on construction *)

(** X4. A dealer who is not one of the players: the constructor raises
    [ValueError] at line 59, before a card is dealt, so the players' objects
    are as they were; this covers the empty players list. *)
Theorem init_dealer_absent players dealer deck h :
  dealer ∉ players →
  init players dealer deck h = Failed ValueError h.
Proof.
  intros Hnot. unfold init. apply index_None in Hnot. by rewrite Hnot.
Qed.

Lemma init_dealer_absent_witness :
  init [0; 1] 2 deck10 no_players = Failed ValueError no_players
  ∧ init [] 0 deck10 no_players = Failed ValueError no_players.
Proof.
  split.
  - apply (init_dealer_absent [0; 1] 2 deck10 no_players).
    apply (bool_decide_unpack _). by vm_compute.
  - apply (init_dealer_absent [] 0 deck10 no_players).
    apply (bool_decide_unpack _). by vm_compute.
Defined.

Lemma opening_hand players dealer d deck h p :
  hand_of (opening players dealer d deck h) p = current_hand (h p).
Proof.
  unfold opening, hand_of. case_decide; cbn [heap]; [|done].
  destruct (decide (dealer = p)) as [<-|Hne].
  - by rewrite fn_lookup_insert.
  - by rewrite fn_lookup_insert_ne.
Qed.

(** X5. The opening deal in detail: a successful construction with distinct
    players takes the first 4 cards of the deck for the mesa and then 3 cards
    for each player in the order of the players sequence, starting with the
    player at index 0 whoever the dealer is: the player at index [i] gets the
    cards at positions 4 + 3i, 4 + 3i + 1 and 4 + 3i + 2, added to the hand
    it came with, and the deck keeps what follows the first 4 + 3·N cards. *)
Theorem init_deals_in_order players dealer deck h d :
  NoDup players →
  index dealer players = Some d →
  4 + 3 * length players ≤ length deck →
  ∃ w, init players dealer deck h = Constructed w
    ∧ _deck (self w) = drop (4 + 3 * length players) deck
    ∧ _finished (self w) = false
    ∧ ∀ i p, players !! i = Some p →
        hand_of w p = current_hand (h p) ++ take 3 (drop (4 + 3 * i) deck)
        ∧ length (take 3 (drop (4 + 3 * i) deck)) = 3.
Proof.
  intros Hnd Hidx Hlen. eexists. split; [by apply init_ok|].
  destruct (opening_self players dealer d deck h) as (Hps & Hdl & Hdk & Hf & Hlp & Hc).
  set (w := opening players dealer d deck h) in *.
  destruct (after_next_deal_fixed w) as (_ & _ & Hf2 & _).
  split_and!.
  - cbn [after_next after_deal self set_current_player set_deck _deck].
    rewrite Hps, Hdk, drop_drop. done.
  - by rewrite Hf2.
  - intros i p Hi. rewrite hand_after_next.
    destruct (hand_after_deal w i p) as [-> H3].
    + by rewrite Hps.
    + rewrite Hps, Hdk, length_drop. lia.
    + by rewrite Hps.
    + rewrite Hdk, drop_drop in *. unfold w. rewrite opening_hand. done.
Qed.

Lemma init_deals_in_order_witness :
  ∃ w, init [0; 1] 1 deck10 no_players = Constructed w
    ∧ _deck (self w) = []
    ∧ hand_of w 0 = [c 5 4; c 6 5; c 7 6]
    ∧ hand_of w 1 = [c 1 7; c 2 8; c 3 9].
Proof.
  destruct (init_deals_in_order [0; 1] 1 deck10 no_players 1)
    as (w & H1 & H2 & H3 & H4).
  - apply (bool_decide_unpack _). by vm_compute.
  - vm_compute. reflexivity.
  - vm_compute. lia.
  - exists w. split; [done|]. split; [rewrite H2; vm_compute; reflexivity|].
    split.
    + destruct (H4 0 0) as [-> _]; vm_compute; reflexivity.
    + destruct (H4 1 1) as [-> _]; vm_compute; reflexivity.
Defined.

(** ** What the bookkeeping of a turn leaves alone *)

Lemma world_of_play_action own_card mesa_cards w p :
  _players (self w) !! _current_player (self w) = Some p →
  world_of (play_action own_card mesa_cards w)
  = if decide (valid_move w p own_card mesa_cards)
    then after_action w p own_card mesa_cards else w.
Proof.
  intros Hp. rewrite play_action_eq, Hp. by case_decide.
Qed.

(** X6. Only the player's action changes the mesa: whatever follows it in
    [play_turn] (the end of the ronda, a redeal, passing the turn, an
    exception from the deck) leaves the mesa as the action left it.  A redeal
    deals no card to the mesa. *)
Theorem mesa_changes_only_by_the_action own_card mesa_cards w :
  _finished (self w) = false →
  _mesa (self (world_of (play_turn own_card mesa_cards w)))
  = _mesa (self (world_of (play_action own_card mesa_cards w))).
Proof.
  intros Hfin.
  pose proof (play_turn_turn own_card mesa_cards w) as Ht.
  destruct Ht as [ | Hf Hp | p Hf Hp Hv | p Hf Hp Hv | p w1 Hf Hp Hv | p w1 Hf Hp Hv
                 | p w' w1 Hf Hp Hv ? ? ? ? [Hself _] | p dlr w1 Hf Hp Hv ];
    try congruence; cbn [world_of]; try subst w1.
  - rewrite play_action_eq, Hp. done.
  - rewrite (world_of_play_action _ _ _ p Hp), decide_False by done. done.
  - rewrite (world_of_play_action _ _ _ p Hp), decide_True by done. done.
  - rewrite (world_of_play_action _ _ _ p Hp), decide_True by done. done.
  - rewrite (world_of_play_action _ _ _ p Hp), decide_True by done. done.
  - rewrite (world_of_play_action _ _ _ p Hp), decide_True by done.
    rewrite Hself. done.
  - rewrite (world_of_play_action _ _ _ p Hp), decide_True by done. done.
Qed.

Lemma mesa_changes_only_by_the_action_witness :
  _mesa (self (world_of (play_turn (c 7 6) None table16_last)))
  = _mesa (self table16_dropped)
  ∧ length (_mesa (self table16_dropped)) = 10.
Proof.
  split; [|vm_compute; reflexivity].
  rewrite (mesa_changes_only_by_the_action (c 7 6) None table16_last)
    by (vm_compute; reflexivity).
  vm_compute. reflexivity.
Defined.

Lemma last_picker_seated players dealer deck h w0 w :
  init players dealer deck h = Constructed w0 →
  reachable w0 w →
  _players (self w) = players ∧ _last_picked_up (self w) ∈ players.
Proof.
  intros Hinit Hreach. induction Hreach as [|w own_card mesa_cards Hr [IHp IHl]].
  - apply init_Constructed in Hinit as (d & Hidx & Hlen & ->).
    destruct (opening_self players dealer d deck h) as (Hps & _ & _ & _ & Hlp & _).
    destruct (after_next_deal_fixed (opening players dealer d deck h))
      as (Hps2 & _ & _ & Hlp2 & _).
    rewrite Hps2, Hlp2, Hps, Hlp. split; [done|].
    apply index_is_Some. by eexists.
  - pose proof (play_turn_turn own_card mesa_cards w) as Ht.
    destruct (turn_fixed _ _ _ _ Ht) as (Hps & _ & _).
    rewrite Hps. split; [done|].
    destruct (turn_last_picked_up _ _ _ _ Ht) as [->|(_ & _ & p & Hp & _ & ->)];
      [done|].
    rewrite <- IHp. by eapply list_elem_of_lookup_2.
Qed.

(** X7. Who sits at the table never changes: in every world a caller can
    observe after construction, whether the calls before returned or raised,
    the players sequence is the one the constructor was given, the dealer
    index still points at the dealer, and the last picker is one of the
    players; so the cards left on the mesa at the end go to a pile of the
    ronda. *)
Theorem last_picker_is_a_player players dealer deck h w0 w :
  init players dealer deck h = Constructed w0 →
  reachable w0 w →
  _players (self w) = players
  ∧ _players (self w) !! _dealer (self w) = Some dealer
  ∧ _last_picked_up (self w) ∈ players.
Proof.
  intros Hinit Hreach.
  destruct (last_picker_seated _ _ _ _ _ _ Hinit Hreach) as [Hps Hlp].
  destruct (seated_init _ _ _ _ _ Hinit) as (d & Hd & Hs0).
  destruct (seated_reachable players dealer d Hd w0 w Hs0 Hreach)
    as (_ & Hdl & _).
  split_and!; try done. by rewrite Hps, Hdl.
Qed.

Lemma last_picker_is_a_player_witness :
  _players (self table10_end) = [0; 1]
  ∧ _players (self table10_end) !! _dealer (self table10_end) = Some 0
  ∧ _last_picked_up (self table10_end) ∈ [0; 1].
Proof.
  apply (last_picker_is_a_player [0; 1] 0 deck10 no_players table10 table10_end).
  - vm_compute. reflexivity.
  - apply reachable_play_turns, reachable_start.
Defined.

(** X8. The exceptions of a constructed ronda: whatever the arguments, and
    after whatever calls came before, [play_turn] returns or raises one of
    [RondaFinishedError], [InvalidMoveError] and [DeckExhaustedError].  The
    subscripts of lines 109 and 136 are always in range and the modulus of
    line 101 is never zero: no [IndexError], no [ZeroDivisionError]. *)
Theorem play_turn_exceptions players dealer deck h w0 w own_card mesa_cards :
  init players dealer deck h = Constructed w0 →
  reachable w0 w →
  match raised (play_turn own_card mesa_cards w) with
  | None => True
  | Some e =>
      (e = RondaFinishedError ∧ _finished (self w) = true)
      ∨ (e = InvalidMoveError ∧ _finished (self w) = false)
      ∨ (e = DeckExhaustedError ∧ short_redeal w own_card mesa_cards)
  end.
Proof.
  intros Hinit Hreach.
  destruct (seated_init _ _ _ _ _ Hinit) as (d & Hd & Hs0).
  destruct (seated_reachable players dealer d Hd w0 w Hs0 Hreach)
    as (Hps & Hdl & Hcur & Hfin).
  pose proof (play_turn_deck_exhausted own_card mesa_cards w) as Hshort.
  pose proof (play_turn_turn own_card mesa_cards w) as Ht.
  destruct Ht as [ | Hf Hp | p Hf Hp Hv | p Hf Hp Hv Hdlr | p w1 | p w1
                 | p w' w1 | p dlr w1 ]; cbn [raised]; try done.
  - by left.
  - rewrite Hps in Hp. apply lookup_ge_None in Hp. lia.
  - right. by left.
  - rewrite Hps, Hdl, Hd in Hdlr. done.
  - right. right. split; [done|]. apply Hshort. by eexists.
Qed.

Lemma play_turn_exceptions_witness :
  raised (play_turn (c 7 6) None table11_last) = Some DeckExhaustedError
  ∧ short_redeal table11_last (c 7 6) None.
Proof.
  assert (raised (play_turn (c 7 6) None table11_last) = Some DeckExhaustedError)
    as Hr by (vm_compute; reflexivity).
  split; [exact Hr|].
  assert (init [0; 1] 0 deck11 no_players = Constructed table11) as Hinit
    by (vm_compute; reflexivity).
  assert (reachable table11 table11_last) as Hreach
    by apply reachable_play_turns, reachable_start.
  pose proof (play_turn_exceptions [0; 1] 0 deck11 no_players table11 table11_last
                (c 7 6) None Hinit Hreach) as H.
  rewrite Hr in H.
  destruct H as [[E _]|[[E _]|[_ H]]]; [discriminate E|discriminate E|exact H].
Defined.

(** ** The deck only shrinks *)

Lemma play_turn_short_world own_card mesa_cards w :
  short_redeal w own_card mesa_cards →
  _deck (self (world_of (play_turn own_card mesa_cards w)))
  = drop (3 * (length (_deck (self w)) / 3)) (_deck (self w)).
Proof.
  intros (Hfin & p & Hp & Hd & Hv & Hh & Hlen).
  rewrite play_turn_eq, Hfin, play_action_eq, Hp, decide_True by done.
  fold (after_action w p own_card mesa_cards).
  destruct (after_action_self w p own_card mesa_cards)
    as (Hps & Hdl & Hdk & Hf & _ & Hc).
  set (w1 := after_action w p own_card mesa_cards) in *.
  rewrite (play_branch_eq w1 p p) by (by rewrite Hps, ?Hc, ?Hdl).
  rewrite decide_True by done.
  rewrite decide_False by (rewrite Hdk; intros E; rewrite E in Hlen; simpl in Hlen; lia).
  unfold mbind, M_bind, bind.
  rewrite deal_hands_eq by (by rewrite Hf).
  rewrite deal_each_short_eq by (rewrite Hps, Hdk; lia).
  cbn [world_of self set_deck _deck]. by rewrite Hdk.
Qed.

(** X9. The deck is never refilled: after any call of [play_turn], returning
    or raising, the deck is what the deck before the call holds behind its
    first 3·k cards, for some k not above the number of players; k is 0
    unless the call came to deal hands. *)
Theorem deck_only_shrinks own_card mesa_cards w :
  ∃ k, k ≤ length (_players (self w))
    ∧ _deck (self (world_of (play_turn own_card mesa_cards w)))
      = drop (3 * k) (_deck (self w)).
Proof.
  destruct (decide (raised (play_turn own_card mesa_cards w) = Some DeckExhaustedError))
    as [Hraised|Hraised].
  - assert (short_redeal w own_card mesa_cards) as Hshort.
    { apply play_turn_deck_exhausted.
      destruct (play_turn own_card mesa_cards w) as [|e w']; [done|].
      injection Hraised as ->. by eexists. }
    exists (length (_deck (self w)) / 3). split.
    + destruct Hshort as (_ & _ & _ & _ & _ & _ & _ & Hlen).
      apply Nat.Div0.div_lt_upper_bound in Hlen. lia.
    + by apply play_turn_short_world.
  - pose proof (play_turn_turn own_card mesa_cards w) as Ht.
    destruct Ht as [ | | | p | p w1 | p w1 Hf Hp Hv Hd Hh Hdk Hlen
                   | p w' w1 | p dlr w1 ];
      cbn [world_of]; try subst w1;
      try (destruct (after_action_self w p own_card mesa_cards)
             as (Hps1 & Hd1 & Hdk1 & Hf1 & _ & Hc1)).
    1-5,8: (exists 0; split; [lia|]; try done;
            cbn [after_finish after_next self set_finished set_current_player _deck];
            by rewrite ?Hdk1).
    + exists (length (_players (self w))). split; [done|].
      cbn [after_next after_deal self set_current_player set_deck _deck].
      by rewrite Hps1, Hdk1.
    + done.
Qed.

(** ** How long a ronda lasts *)

(** X10. What [is_finished] means, as its docstring says: in a ronda played
    by distinct players who came without cards, once [is_finished] returns
    true the deck is empty and every player has played the last card. *)
Theorem finished_means_all_played players dealer deck h w0 w :
  NoDup players →
  (∀ p, p ∈ players → h p = fresh_player) →
  init players dealer deck h = Constructed w0 →
  played w0 w →
  is_finished w = Ok true w →
  cards (_deck (self w)) = [] ∧ ∀ p, p ∈ players → hand_of w p = [].
Proof.
  intros Hnd Hfresh Hinit Hplayed Hfin.
  destruct (at_table_init _ _ _ _ _ Hnd Hfresh Hinit) as (d & Hd & H0).
  destruct (at_table_played players dealer d (length deck) Hnd Hd w0 w H0 Hplayed)
    as (_ & _ & _ & _ & Hinv).
  assert (_finished (self w) = true) as Hf.
  { unfold is_finished, mbind, M_bind, bind, get_self, ret in Hfin. congruence. }
  rewrite Hf in Hinv. unfold cards. tauto.
Qed.

Lemma finished_means_all_played_witness :
  cards (_deck (self table10_end)) = []
  ∧ ∀ p, p ∈ [0; 1] → hand_of table10_end p = [].
Proof.
  apply (finished_means_all_played [0; 1] 0 deck10 no_players table10 table10_end).
  - apply (bool_decide_unpack _). by vm_compute.
  - intros p _. reflexivity.
  - vm_compute. reflexivity.
  - apply (played_play_turns drops10 table10 table10 table10_end).
    + apply played_start.
    + apply (bool_decide_unpack _). by vm_compute.
    + vm_compute. reflexivity.
  - vm_compute. reflexivity.
Defined.










